(** * ABEL model helper: entity operations between two building models

    A shallow embedding of [tools/abel/model/model_helper.py]: the link
    similarity score, the two update-mask calculators, the operation differ
    [DetermineEntityOperations] and the reconciler [ReconcileOperations].

    Python sets of hashable values are [gset]s, the dictionary of generated
    operations is a [gmap] keyed by guid, lists stay lists, and a function
    that can raise returns in the [Result] monad. *)

From Stdlib Require Import QArith Qabs Sorted.
From Stdlib Require Import Uint63 PrimFloat FloatOps SpecFloat.
From stdpp Require Import gmap strings list.
Close Scope Q_scope.

(** ** Enumerations ([entity_enumerations]) *)

Inductive EntityOperationType : Set := ADD | UPDATE | DELETE | EXPORT.

Inductive EntityUpdateMaskAttribute : Set :=
  CODE | TYPE | CONNECTIONS | TRANSLATION | LINKS.

#[global] Instance EntityOperationType_eq_dec : EqDecision EntityOperationType.
Proof. solve_decision. Defined.

#[global] Instance EntityUpdateMaskAttribute_eq_dec :
  EqDecision EntityUpdateMaskAttribute.
Proof. solve_decision. Defined.

(** ** Exceptions and the result monad *)

Inductive Exception : Set :=
  | TypeError (msg : string)
  | ZeroDivisionError
  | KeyError (guid : string).

Definition Result (A : Type) : Type := Exception + A.

Definition Return {A : Type} (a : A) : Result A := inr a.
Definition Raise {A : Type} (e : Exception) : Result A := inl e.

#[global] Instance Result_bind : MBind Result := λ A B f m,
  match m with
  | inl e => inl e
  | inr a => f a
  end.

(** A [for] loop over a list whose body may raise: the loop state is threaded
    through and the first exception ends the loop. *)
Fixpoint for_each {A S : Type} (xs : list A) (s : S)
    (body : S → A → Result S) : Result S :=
  match xs with
  | [] => Return s
  | x :: xs' => s' ← body s x; for_each xs' s' body
  end.

(** Truth value of a Python list: the empty list is false. *)
Definition truthy {A : Type} (l : list A) : bool :=
  match l with
  | [] => false
  | _ :: _ => true
  end.

(** Python's [a / b] on two lengths. The quotient is kept exact, as a
    rational; Python rounds it to the nearest double, which preserves the
    order with respect to the literal [0.9] for every list that fits in
    memory. Dividing by zero raises. The double itself is
    [true_div_double] below. *)
Definition true_div (a b : nat) : Result Q :=
  if decide (b = 0) then Raise ZeroDivisionError
  else Return (inject_Z (Z.of_nat a) / inject_Z (Z.of_nat b))%Q.

(** The threshold [0.9] of the links check. *)
Definition link_threshold : Q := (9 # 10)%Q.

(** *** The quotient as the double Python returns

    [a / b] on two integers is the double nearest to the exact quotient,
    ties going to the even mantissa. A double is kept as the rational it
    denotes. The exponent range is left out: a length is below 2^63, so the
    quotient of two lengths neither overflows nor is subnormal. *)

(** [N / D] rounded to the nearest integer, ties to even. *)
Definition round_half_even (N D : Z) : Z :=
  let m := (N / D)%Z in
  let r := (N mod D)%Z in
  if (2 * r <? D)%Z then m
  else if (D <? 2 * r)%Z then (m + 1)%Z
  else if Z.even m then m else (m + 1)%Z.

(** The binade of [a / b], for positive [a] and [b]: the [e] with
    [2^e <= a / b < 2^(e+1)]. *)
Definition binade (a b : Z) : Z :=
  let la := Z.log2 a in
  let lb := Z.log2 b in
  if (b * 2 ^ la <=? a * 2 ^ lb)%Z then (la - lb)%Z else (la - lb - 1)%Z.

(** The double nearest to [a / b], for [0 <= a] and [0 < b]: the quotient is
    scaled by [2^k] to a mantissa of 53 bits, which is rounded. *)
Definition nearest_double (a b : Z) : Q :=
  if (a =? 0)%Z then 0%Q
  else
    let k := (52 - binade a b)%Z in
    if (0 <=? k)%Z then
      (round_half_even (a * 2 ^ k) b # Z.to_pos (2 ^ k))%Q
    else inject_Z (round_half_even a (b * 2 ^ (- k)) * 2 ^ (- k)).

(** Python's [a / b] on two lengths, as the double it returns. *)
Definition true_div_double (a b : nat) : Result Q :=
  if decide (b = 0) then Raise ZeroDivisionError
  else Return (nearest_double (Z.of_nat a) (Z.of_nat b)).

Section Model.

(** [ft.FieldTranslation] and the connection class are defined outside this
    module; the code only needs them hashable with value equality. *)
Context {FieldTranslation : Type} `{Countable FieldTranslation}.
Context {Connection : Type} `{Countable Connection}.

(** ** Entities ([entity]) *)

(** Attributes every entity carries. *)
Record EntityAttrs : Type := mkEntityAttrs {
  bc_guid : string;
  code : string;
  type_name : string;
  connections : list Connection;
}.

Record VirtualEntity : Type := mkVirtualEntity {
  virtual_attrs :> EntityAttrs;
  links : list FieldTranslation;
}.

Record ReportingEntity : Type := mkReportingEntity {
  reporting_attrs :> EntityAttrs;
  translations : list FieldTranslation;
}.

Inductive Entity : Type :=
  | Virtual (v : VirtualEntity)
  | Reporting (r : ReportingEntity).

Definition entity_attrs (e : Entity) : EntityAttrs :=
  match e with
  | Virtual v => v
  | Reporting r => r
  end.

Coercion entity_attrs : Entity >-> EntityAttrs.

(** ** Operations ([entity_operation]) *)

(** Modelled from the spec: the [EntityOperation] class is not in this module;
    it pairs an entity with an operation tag and, for UPDATE, an update mask.
    The mask argument defaults to [None]. An operation instance is true in a
    condition. *)
Record EntityOperation : Type := mkEntityOperation {
  entity : Entity;
  operation : EntityOperationType;
  update_mask : option (list EntityUpdateMaskAttribute);
}.

(** ** Models ([model_builder]) *)

Record Model : Type := mkModel {
  entities : list Entity;
}.

(** Modelled from the spec: [Model.GetEntity] is not in this module; it is the
    guid-keyed lookup, returning the entity of the model with that guid, and
    raising when there is none. *)
Definition GetEntity (model : Model) (guid : string) : Result Entity :=
  match list_find (λ e : Entity, bc_guid e = guid) (entities model) with
  | Some (_, e) => Return e
  | None => Raise (KeyError guid)
  end.

(** ** [_GetLinkScore] *)

Definition _GetLinkScore (current_links updated_links : list FieldTranslation)
    : Result Q :=
  let current_link_set : gset FieldTranslation := list_to_set current_links in
  let updated_link_set : gset FieldTranslation := list_to_set updated_links in
  link_score ← true_div (size (updated_link_set ∩ current_link_set))
                        (size current_link_set);
  Return link_score.

(** [_GetLinkScore] with the score as the double the division returns;
    [_GetLinkScore] above keeps the exact quotient, which the comparison with
    [0.9] cannot tell from the double. *)
Definition _GetLinkScore_double
    (current_links updated_links : list FieldTranslation) : Result Q :=
  let current_link_set : gset FieldTranslation := list_to_set current_links in
  let updated_link_set : gset FieldTranslation := list_to_set updated_links in
  link_score ← true_div_double (size (updated_link_set ∩ current_link_set))
                               (size current_link_set);
  Return link_score.

(** ** [DetermineReportingEntityUpdateMask]

    The diagnostic [print] calls under [code == 'VAV-3'] write to standard
    output only and are left out. *)
Definition DetermineReportingEntityUpdateMask
    (current_entity updated_entity : ReportingEntity)
    : list EntityUpdateMaskAttribute :=
  let update_mask := [] in
  let update_mask :=
    if decide (code updated_entity ≠ code current_entity)
    then update_mask ++ [CODE] else update_mask in
  let update_mask :=
    if decide (type_name updated_entity ≠ type_name current_entity)
    then update_mask ++ [TYPE] else update_mask in
  let update_mask :=
    if decide ((list_to_set (connections updated_entity) : gset Connection)
                 ∖ list_to_set (connections current_entity) ≠ ∅)
    then update_mask ++ [CONNECTIONS] else update_mask in
  let update_mask :=
    if decide ((list_to_set (translations updated_entity) : gset FieldTranslation)
                 ∩ list_to_set (translations current_entity)
               ≠ list_to_set (translations current_entity))
    then update_mask ++ [TRANSLATION] else update_mask in
  update_mask.

(** ** [DetermineVirtualEntityUpdateMask]

    The calculator is written over the scorer it calls, so that a statement
    can quantify over the scorer; the program's calculator is the instance at
    [_GetLinkScore]. The condition [a and b and score < 0.9] evaluates
    left to right and stops at the first false operand. *)
Definition DetermineVirtualEntityUpdateMaskWith
    (GetLinkScore : list FieldTranslation → list FieldTranslation → Result Q)
    (current_entity updated_entity : VirtualEntity)
    : Result (list EntityUpdateMaskAttribute) :=
  let update_mask := [] in
  let update_mask :=
    if decide (code updated_entity ≠ code current_entity)
    then update_mask ++ [CODE] else update_mask in
  let update_mask :=
    if decide (type_name updated_entity ≠ type_name current_entity)
    then update_mask ++ [TYPE] else update_mask in
  let update_mask :=
    if decide ((list_to_set (connections updated_entity) : gset Connection)
                 ∖ list_to_set (connections current_entity) ≠ ∅)
    then update_mask ++ [CONNECTIONS] else update_mask in
  links_changed ←
    (if truthy (links current_entity) then
       if truthy (links updated_entity) then
         link_score ← GetLinkScore (links current_entity) (links updated_entity);
         Return (if Qlt_le_dec link_score link_threshold then true else false)
       else Return false
     else Return false);
  let update_mask :=
    if links_changed : bool then update_mask ++ [LINKS] else update_mask in
  Return update_mask.

Definition DetermineVirtualEntityUpdateMask
    : VirtualEntity → VirtualEntity → Result (list EntityUpdateMaskAttribute) :=
  DetermineVirtualEntityUpdateMaskWith _GetLinkScore.

(** ** [DetermineEntityOperations] *)

(** The message of the [TypeError] raised for a guid that maps to entities of
    two different variants. *)
Definition variant_conflict_message (guid : string) : string :=
  "GUID: " +:+ guid +:+ " Maps to both a reporting entity and a virtual entity.".

(** One iteration of the loop over [updated_model.entities]: [operations] is
    the list built so far, the result is the list after the iteration. *)
Definition DetermineEntityOperations_body (current_model : Model)
    (operations : list EntityOperation) (import_entity : Entity)
    : Result (list EntityOperation) :=
  if decide (bc_guid import_entity
               ∉ (list_to_set ((λ entity : Entity, bc_guid entity)
                                 <$> entities current_model) : gset string))
  then
    Return (operations ++ [mkEntityOperation import_entity ADD None])
  else
    export_entity ← GetEntity current_model (bc_guid import_entity);
    update_mask ←
      match import_entity, export_entity with
      | Virtual import_virtual, Virtual export_virtual =>
          DetermineVirtualEntityUpdateMask export_virtual import_virtual
      | Reporting import_reporting, Reporting export_reporting =>
          Return (DetermineReportingEntityUpdateMask
                    export_reporting import_reporting)
      | _, _ =>
          Raise (TypeError (variant_conflict_message (bc_guid import_entity)))
      end;
    if truthy update_mask then
      Return (operations
                ++ [mkEntityOperation import_entity UPDATE (Some update_mask)])
    else Return operations.

Definition DetermineEntityOperations (current_model updated_model : Model)
    : Result (list EntityOperation) :=
  let operations := [] in
  for_each (entities updated_model) operations
           (DetermineEntityOperations_body current_model).

(** ** [ReconcileOperations] *)

(** The dictionary comprehension over [generated_operations]: a later
    operation replaces an earlier one with the same guid. *)
Definition generated_operation_map_of
    (generated_operations : list EntityOperation)
    : gmap string EntityOperation :=
  foldl (λ m operation, <[bc_guid (entity operation) := operation]> m)
        ∅ generated_operations.

(** One iteration of the loop over [model_operations]. *)
Definition ReconcileOperations_body
    (generated_operation_map : gmap string EntityOperation)
    (return_operations : list EntityOperation)
    (model_operation : EntityOperation) : list EntityOperation :=
  match generated_operation_map !! bc_guid (entity model_operation) with
  | None => return_operations ++ [model_operation]
  | Some generated_operation =>
      if decide (operation model_operation = DELETE) then
        return_operations ++ [model_operation]
      else if decide (operation model_operation = EXPORT
                      ∧ operation generated_operation ≠ EXPORT) then
        return_operations ++ [generated_operation]
      else
        return_operations ++ [generated_operation]
  end.

Definition ReconcileOperations
    (model_operations generated_operations : list EntityOperation)
    : list EntityOperation :=
  let return_operations := [] in
  let generated_operation_map :=
    generated_operation_map_of generated_operations in
  foldl (ReconcileOperations_body generated_operation_map)
        return_operations model_operations.

(** ** Notions used to state the properties *)

(** The fraction of the distinct current links that occur among the updated
    links, counted on the lists. *)
Definition link_overlap_ratio
    (current_links updated_links : list FieldTranslation) : Q :=
  let distinct_current := remove_dups current_links in
  (Z.of_nat (length (filter (λ link, link ∈ updated_links) distinct_current))
   # Pos.of_nat (length distinct_current))%Q.

(** The outcome of the three checks both calculators make. *)
Definition shared_mask (current_entity updated_entity : EntityAttrs)
    : list EntityUpdateMaskAttribute :=
  (if decide (code updated_entity ≠ code current_entity) then [CODE] else [])
  ++ (if decide (type_name updated_entity ≠ type_name current_entity)
      then [TYPE] else [])
  ++ (if decide ((list_to_set (connections updated_entity) : gset Connection)
                   ∖ list_to_set (connections current_entity) ≠ ∅)
      then [CONNECTIONS] else []).

(** The guids of a model. *)
Definition guids_of (model : Model) : gset string :=
  list_to_set ((λ entity : Entity, bc_guid entity) <$> entities model).

Definition same_variant (e1 e2 : Entity) : bool :=
  match e1, e2 with
  | Virtual _, Virtual _ | Reporting _, Reporting _ => true
  | _, _ => false
  end.

(** [import_entity] has its guid in [current_model], at an entity of the
    other variant. *)
Definition variant_conflict (current_model : Model) (import_entity : Entity)
    : bool :=
  match GetEntity current_model (bc_guid import_entity) with
  | inr export_entity => negb (same_variant import_entity export_entity)
  | inl _ => false
  end.

(** The mask the differ computes for a pair with one guid: the dispatch on
    the variants of the two entities. *)
Definition pair_update_mask (export_entity import_entity : Entity)
    : Result (list EntityUpdateMaskAttribute) :=
  match import_entity, export_entity with
  | Virtual import_virtual, Virtual export_virtual =>
      DetermineVirtualEntityUpdateMask export_virtual import_virtual
  | Reporting import_reporting, Reporting export_reporting =>
      Return (DetermineReportingEntityUpdateMask
                export_reporting import_reporting)
  | _, _ =>
      Raise (TypeError (variant_conflict_message (bc_guid import_entity)))
  end.

(** A pair of one variant in which nothing counts as changed: same code and
    type, no connection added, and no translation lost (reporting) or links
    that are empty on a side or similar enough (virtual). *)
Definition pair_unchanged (export_entity import_entity : Entity) : Prop :=
  code import_entity = code export_entity
  ∧ type_name import_entity = type_name export_entity
  ∧ (∀ connection, connection ∈ connections import_entity →
                   connection ∈ connections export_entity)
  ∧ match import_entity, export_entity with
    | Reporting import_reporting, Reporting export_reporting =>
        ∀ translation, translation ∈ translations export_reporting →
                       translation ∈ translations import_reporting
    | Virtual import_virtual, Virtual export_virtual =>
        links export_virtual = [] ∨ links import_virtual = []
        ∨ ∃ link_score,
            _GetLinkScore (links export_virtual) (links import_virtual)
            = Return link_score
            ∧ (link_threshold <= link_score)%Q
    | _, _ => False
    end.

(** An entity with its connections replaced and nothing else changed. *)
Definition with_connections (e : Entity) (kept : list Connection) : Entity :=
  let attrs := mkEntityAttrs (bc_guid e) (code e) (type_name e) kept in
  match e with
  | Virtual v => Virtual (mkVirtualEntity attrs (links v))
  | Reporting r => Reporting (mkReportingEntity attrs (translations r))
  end.

(** The operations of a list that concern a guid. *)
Definition operations_for (guid : string) (operations : list EntityOperation)
    : list EntityOperation :=
  filter (λ operation, bc_guid (entity operation) = guid) operations.

End Model.

Arguments EntityAttrs : clear implicits.
Arguments VirtualEntity : clear implicits.
Arguments ReportingEntity : clear implicits.
Arguments Entity : clear implicits.
Arguments EntityOperation : clear implicits.
Arguments Model : clear implicits.

(** ** Sample data

    Field translations and connections are numbered; [G1] to [G4] are
    guids. *)

Definition sample_attrs (guid code : string) (connections : list nat)
    : EntityAttrs nat :=
  mkEntityAttrs guid code "HVAC/VAV_SD_DSP" connections.

Definition vav_current_record : ReportingEntity nat nat :=
  mkReportingEntity (sample_attrs "G1" "VAV-1" [10; 11]) [1; 2; 3].

(** [vav_current_record] with a connection removed and a translation added. *)
Definition vav_updated_record : ReportingEntity nat nat :=
  mkReportingEntity (sample_attrs "G1" "VAV-1" [10]) [1; 2; 3; 4].

(** [vav_current_record] renamed, with a translation lost. *)
Definition vav_renamed_record : ReportingEntity nat nat :=
  mkReportingEntity (sample_attrs "G1" "VAV-1B" [10; 11]) [1; 2].

Definition zone_current_record : VirtualEntity nat nat :=
  mkVirtualEntity (sample_attrs "G2" "ZONE-1" [20]) [1; 2; 3].

(** [zone_current_record] with one link of three replaced. *)
Definition zone_updated_record : VirtualEntity nat nat :=
  mkVirtualEntity (sample_attrs "G2" "ZONE-1" [20]) [1; 2; 4].

(** A facilities entity: virtual, without links. *)
Definition floor_current_record : VirtualEntity nat nat :=
  mkVirtualEntity (sample_attrs "G3" "FLOOR-1" []) [].

Definition floor_updated_record : VirtualEntity nat nat :=
  mkVirtualEntity (sample_attrs "G3" "FLOOR-1" []) [5].

Definition vav_current : Entity nat nat := Reporting vav_current_record.
Definition vav_updated : Entity nat nat := Reporting vav_updated_record.
Definition vav_renamed : Entity nat nat := Reporting vav_renamed_record.
Definition zone_current : Entity nat nat := Virtual zone_current_record.
Definition zone_updated : Entity nat nat := Virtual zone_updated_record.
Definition floor_current : Entity nat nat := Virtual floor_current_record.
Definition floor_updated : Entity nat nat := Virtual floor_updated_record.

(** An entity the current model does not have. *)
Definition fan_new : Entity nat nat :=
  Virtual (mkVirtualEntity (sample_attrs "G4" "FAN-1" [30]) [6]).

(** The guid of [zone_current], at a reporting entity. *)
Definition zone_as_reporting : Entity nat nat :=
  Reporting (mkReportingEntity (sample_attrs "G2" "ZONE-1" [20]) [1; 2; 3]).

Definition sample_current_model : Model nat nat :=
  mkModel [vav_current; zone_current; floor_current].

Definition sample_updated_model : Model nat nat :=
  mkModel [fan_new; vav_renamed; zone_updated; floor_updated].

Definition sample_conflict_model : Model nat nat :=
  mkModel [fan_new; zone_as_reporting; vav_renamed].

(** Manually authored operations, and the operations the differ generates
    for the sample models. *)
Definition sample_model_operations : list (EntityOperation nat nat) :=
  [ mkEntityOperation vav_current EXPORT None;
    mkEntityOperation zone_current DELETE None;
    mkEntityOperation floor_current UPDATE (Some [CODE]) ].

Definition sample_generated_operations : list (EntityOperation nat nat) :=
  [ mkEntityOperation fan_new ADD None;
    mkEntityOperation vav_renamed UPDATE (Some [CODE; TRANSLATION]);
    mkEntityOperation zone_updated UPDATE (Some [LINKS]) ].

(** The guid of [vav_current], at a virtual entity; with it, two guids of
    the updated model conflict. *)
Definition vav_as_virtual : Entity nat nat :=
  Virtual (mkVirtualEntity (sample_attrs "G1" "VAV-1" [10; 11]) [1; 2; 3]).

Definition sample_two_conflicts_model : Model nat nat :=
  mkModel [vav_as_virtual; zone_as_reporting].

(** ** The division of the machine

    The rational a binary64 value denotes, and the quotient of two integers
    below 2^53 as the floating-point unit divides them; [nearest_double] is
    compared with it on sample quotients. *)
Definition SF2Q (x : spec_float) : Q :=
  match x with
  | S754_finite sign m e =>
      let mantissa := if sign then Z.neg m else Z.pos m in
      if (0 <=? e)%Z then inject_Z (mantissa * 2 ^ e)
      else (mantissa # Z.to_pos (2 ^ (- e)))%Q
  | _ => 0%Q
  end.

Definition machine_div (a b : Z) : Q :=
  SF2Q (Prim2SF (PrimFloat.div (PrimFloat.of_uint63 (Uint63.of_Z a))
                               (PrimFloat.of_uint63 (Uint63.of_Z b)))).

(** The quotients [a / b] with [0 <= a <= b <= n], [0 < b]. *)
Fixpoint quotients_upto (n : nat) : list (Z * Z) :=
  match n with
  | O => []
  | S n' =>
      ((λ a, (Z.of_nat a, Z.of_nat n)) <$> seq 0 (S n)) ++ quotients_upto n'
  end.

(** ** Further notions used to state properties *)

(** What the reconciler puts at the position of a manual operation: the
    manual operation, or the last generated operation with its guid. *)
Definition reconciled {FieldTranslation Connection : Type}
    (generated_operations : list (EntityOperation FieldTranslation Connection))
    (model_operation : EntityOperation FieldTranslation Connection)
    : EntityOperation FieldTranslation Connection :=
  match last (operations_for (bc_guid (entity model_operation))
                             generated_operations) with
  | None => model_operation
  | Some generated_operation =>
      if decide (operation model_operation = DELETE)
      then model_operation else generated_operation
  end.

(** * The ontology dump ([tools/validators/instance_validator/ontology_dump.py])

    The script flattens the entity types of the ontology universe into rows,
    sorts them by guid and writes them with a [csv.DictWriter]. The universe
    comes from [validate.generate_universe], outside this file: the script
    reads it as a dictionary of namespaces, each with a dictionary of entity
    types. Dictionaries are association lists in insertion order. The
    [print] calls write to standard output only and are left out. *)

Module ontology_dump.

(** A value of a row: a string, a boolean or [None]. *)
Inductive Cell : Set :=
  | CStr (s : string)
  | CBool (b : bool)
  | CNone.

(** A row is a dictionary from column names to values. *)
Definition Row : Set := list (string * Cell).

(** [d[key] = value] on a dictionary: the value of an existing key is
    replaced in place, a new key goes to the end. *)
Fixpoint dict_set (d : Row) (key : string) (value : Cell) : Row :=
  match d with
  | [] => [(key, value)]
  | (k, v) :: d' =>
      if decide (k = key) then (k, value) :: d'
      else (k, v) :: dict_set d' key value
  end.

Fixpoint dict_get (d : Row) (key : string) : option Cell :=
  match d with
  | [] => None
  | (k, v) :: d' => if decide (k = key) then Some v else dict_get d' key
  end.

Definition keys (d : Row) : list string := d.*1.

(** [sep.join(l)]. *)
Fixpoint join (sep : string) (l : list string) : string :=
  match l with
  | [] => ""
  | [s] => s
  | s :: l' => s +:+ sep +:+ join sep l'
  end.

(** What the script reads of a local field: [field.field.field],
    [field.field.increment] and [field.optional]. *)
Record LocalField : Set := mkLocalField {
  field_name : string;
  increment : string;
  optional : bool;
}.

(** What the script reads of an entity type; [parent_typenames] are the
    [typename]s of [parent_names.values()], and [local_field_names] the items
    of that dictionary. *)
Record EntityType : Set := mkEntityType {
  guid : string;
  is_canonical : bool;
  is_abstract : bool;
  description : string;
  parent_typenames : list string;
  local_field_names : list (string * LocalField);
}.

(** The items of [type_namespaces_map], each namespace with the items of its
    [valid_types_map]. *)
Definition TypesByNamespace : Set :=
  list (string * list (string * EntityType)).

(** The exceptions of the script: [sys] is used without being imported, and
    the writer refuses a row with a key outside its field names. *)
Inductive Error : Set :=
  | NameError (name : string)
  | ValueError (wrong_fields : list string).

(** The body of the loop over the entity types of a namespace. *)
Definition entity_rows (namespace : string) (rows : list Row)
    (item : string * EntityType) : list Row :=
  let '(entity_name, entity) := item in
  let entity_row : Row :=
    [ ("guid", CStr (guid entity));
      ("namespace", CStr namespace);
      ("name", CStr entity_name);
      ("is_canonical", CBool (is_canonical entity));
      ("is_abstract", CBool (is_abstract entity));
      ("description", CStr (description entity));
      ("parents", CStr (join "|" (parent_typenames entity))) ] in
  let rows :=
    if truthy (local_field_names entity) then rows
    else
      let canonical_row :=
        dict_set (dict_set entity_row "dbo.point_type" CNone)
                 "field_optional" CNone in
      rows ++ [canonical_row] in
  foldl (λ rows '(_, field),
           let increment := increment field in
           let field_row :=
             dict_set
               (dict_set
                  (dict_set entity_row "dbo.point_type"
                            (CStr (field_name field)))
                  "dbo.point_type_increment" (CStr increment))
               "field_optional" (CBool (optional field)) in
           rows ++ [field_row])
        rows (local_field_names entity).

(** The two nested loops that fill [rows]. *)
Definition build_rows (types_by_ns : TypesByNamespace) : list Row :=
  let rows := [] in
  foldl (λ rows '(namespace, entities),
           foldl (entity_rows namespace) rows entities)
        rows types_by_ns.

(** The sort key [r['guid']]; every row of the script holds a string there. *)
Definition row_guid (r : Row) : string :=
  match dict_get r "guid" with
  | Some (CStr s) => s
  | _ => ""
  end.

(** [rows.sort(key=...)]: the sort is stable and compares keys with [<], on
    strings the lexicographic order of the characters. Its result is that of
    inserting each row, from the last to the first, after the rows with a
    smaller key and before the others. *)
Fixpoint insert_row (r : Row) (rows : list Row) : list Row :=
  match rows with
  | [] => [r]
  | r' :: rows' =>
      if String.ltb (row_guid r') (row_guid r) then r' :: insert_row r rows'
      else r :: rows
  end.

Definition sort_rows (rows : list Row) : list Row :=
  foldr insert_row [] rows.

(** [DictWriter._dict_to_list] with the default [extrasaction='raise'] and
    [restval='']. *)
Definition dict_to_list (fieldnames : list string) (rowdict : Row)
    : Error + list Cell :=
  let wrong_fields := filter (λ key, key ∉ fieldnames) (keys rowdict) in
  if truthy wrong_fields then inl (ValueError wrong_fields)
  else inr ((λ key, default (CStr "") (dict_get rowdict key)) <$> fieldnames).

(** What a run leaves: the lines of [flat_ontology.csv] when the file was
    opened, as cells before they are formatted, and the exception that ended
    the run, if any. *)
Record Outcome : Set := mkOutcome {
  flat_ontology_csv : option (list (list Cell));
  raised : option Error;
}.

(** [writer.writerows(rows)]: the rows are converted and written one by one,
    so the lines before a refused row stay in the file. *)
Fixpoint writerows (fieldnames : list string) (rows : list Row)
    (lines : list (list Cell)) : Outcome :=
  match rows with
  | [] => mkOutcome (Some lines) None
  | r :: rows' =>
      match dict_to_list fieldnames r with
      | inl e => mkOutcome (Some lines) (Some e)
      | inr line => writerows fieldnames rows' (lines ++ [line])
      end
  end.

(** The script, from the universe to what it leaves. *)
Definition main (types_by_ns : TypesByNamespace) : Outcome :=
  let rows := build_rows types_by_ns in
  if truthy rows then
    let rows := sort_rows rows in
    let fieldnames := match rows with r :: _ => keys r | [] => [] end in
    let header := CStr <$> fieldnames in
    writerows fieldnames rows [header]
  else
    mkOutcome None (Some (NameError "sys")).

(** ** Notions used to state the properties *)

(** The columns of a row for an entity type without local fields, and of a
    row for a local field. *)
Definition canonical_keys : list string :=
  [ "guid"; "namespace"; "name"; "is_canonical"; "is_abstract";
    "description"; "parents"; "dbo.point_type"; "field_optional" ].

Definition field_keys : list string :=
  [ "guid"; "namespace"; "name"; "is_canonical"; "is_abstract";
    "description"; "parents"; "dbo.point_type"; "dbo.point_type_increment";
    "field_optional" ].

(** The line the writer makes of a row it accepts. *)
Definition to_line (fieldnames : list string) (rowdict : Row) : list Cell :=
  (λ key, default (CStr "") (dict_get rowdict key)) <$> fieldnames.

(** The entity types of the universe, in the order of the loops. *)
Definition types_of (types_by_ns : TypesByNamespace) : list EntityType :=
  '(_, entities) ← types_by_ns; entities.*2.

(** ** Sample universe *)

Definition sample_fan : EntityType :=
  mkEntityType "b2" true false "A fan." ["SS"; "ST"]
    [ ("run_command", mkLocalField "run_command" "" false);
      ("run_status", mkLocalField "run_status" "_1" true) ].

Definition sample_abstract : EntityType :=
  mkEntityType "a1" false true "Start-stop." [] [].

(** [sample_abstract] with a guid after that of [sample_fan]. *)
Definition sample_abstract_late : EntityType :=
  mkEntityType "c3" false true "Start-stop." [] [].

(** The type without local fields has the smallest guid. *)
Definition sample_universe : TypesByNamespace :=
  [ ("HVAC", [("FAN_SS", sample_fan)]);
    ("", [("SS", sample_abstract)]) ].

(** The type with local fields has the smallest guid. *)
Definition sample_universe_late : TypesByNamespace :=
  [ ("HVAC", [("FAN_SS", sample_fan)]);
    ("", [("SS", sample_abstract_late)]) ].

End ontology_dump.

(** * Properties *)

#[local] Set Warnings "-clear-no-such-hyp".

(** ** The result monad *)

Lemma bind_Return_inv {A B : Type} (m : Result A) (f : A → Result B) (b : B) :
  m ≫= f = Return b → ∃ a, m = Return a ∧ f a = Return b.
Proof. destruct m as [e|a]; [discriminate | eauto]. Qed.

(** ** Strings *)

Lemma string_length_app (s t : string) :
  String.length (s +:+ t) = String.length s + String.length t.
Proof.
  induction s as [|a s IH]; [done|].
  change (S (String.length (s +:+ t)) = S (String.length s + String.length t)).
  by rewrite IH.
Qed.

Lemma string_app_inv_tail (s1 s2 t : string) :
  s1 +:+ t = s2 +:+ t → s1 = s2.
Proof.
  revert s2. induction s1 as [|a s1 IH]; intros [|b s2] Heq.
  - done.
  - apply (f_equal String.length) in Heq.
    rewrite !string_length_app in Heq. cbn [String.length] in Heq. lia.
  - apply (f_equal String.length) in Heq.
    rewrite !string_length_app in Heq. cbn [String.length] in Heq. lia.
  - change (String a (s1 +:+ t) = String b (s2 +:+ t)) in Heq.
    injection Heq as -> Heq. f_equal. by apply IH.
Qed.

Lemma variant_conflict_message_inj (guid1 guid2 : string) :
  variant_conflict_message guid1 = variant_conflict_message guid2 →
  guid1 = guid2.
Proof.
  unfold variant_conflict_message. intros Heq.
  apply (inj (String.app "GUID: ")) in Heq.
  by apply string_app_inv_tail in Heq.
Qed.

(** ** Sets built from lists *)

Lemma size_list_to_set_pos `{Countable A} (l : list A) :
  l ≠ [] → size (list_to_set l : gset A) ≠ 0.
Proof.
  destruct l as [|x l]; [done | intros _ Hz].
  apply size_empty_inv in Hz.
  assert (x ∈ (list_to_set (x :: l) : gset A)) by set_solver.
  set_solver.
Qed.

Lemma difference_nonempty_iff `{Countable A} (X Y : gset A) :
  X ∖ Y ≠ ∅ ↔ ∃ x, x ∈ X ∧ x ∉ Y.
Proof.
  split.
  - intros Hne. apply set_choose_L in Hne as [x Hx]. exists x. set_solver.
  - intros (x & ? & ?). set_solver.
Qed.

Lemma intersection_neq_iff `{Countable A} (X Y : gset A) :
  X ∩ Y ≠ Y ↔ ∃ y, y ∈ Y ∧ y ∉ X.
Proof.
  split.
  - intros Hne. assert (Y ∖ X ≠ ∅) as Hd.
    { intros Hd. apply Hne. apply set_eq. intros y. split; [set_solver|].
      intros Hy. destruct (decide (y ∈ X)); set_solver. }
    apply set_choose_L in Hd as [y Hy]. exists y. set_solver.
  - intros (y & ? & ?). set_solver.
Qed.

(** ** The quotient of two lengths *)

Lemma true_div_Return (a b : nat) :
  b ≠ 0 →
  true_div a b = Return (inject_Z (Z.of_nat a) / inject_Z (Z.of_nat b))%Q.
Proof. intros Hb. unfold true_div. by rewrite decide_False. Qed.

Lemma quotient_Qmake (a b : nat) :
  b ≠ 0 →
  (inject_Z (Z.of_nat a) / inject_Z (Z.of_nat b))%Q
  = (Z.of_nat a # Pos.of_nat b)%Q.
Proof.
  intros Hb. destruct b as [|b]; [done|].
  unfold Qdiv, Qinv, inject_Z, Qmult.
  change (Z.of_nat (S b)) with (Z.pos (Pos.of_succ_nat b)).
  cbn [Qnum Qden].
  by rewrite Z.mul_1_r, Pos.mul_1_l, Pos.of_nat_succ.
Qed.

Lemma quotient_bounds (a b : nat) :
  b ≠ 0 → a ≤ b → (0 <= Z.of_nat a # Pos.of_nat b <= 1)%Q.
Proof.
  intros Hb Hab. unfold Qle. cbn [Qnum Qden].
  assert (Z.pos (Pos.of_nat b) = Z.of_nat b) as Hp.
  { destruct b as [|b]; [done|]. rewrite <- Pos.of_nat_succ. lia. }
  rewrite Hp. lia.
Qed.

(** ** The quotient rounded to a double *)

Lemma round_half_even_near (N D : Z) :
  (0 < D)%Z → (2 * Z.abs (round_half_even N D * D - N) <= D)%Z.
Proof.
  intros HD. unfold round_half_even.
  pose proof (Z.div_mod N D ltac:(lia)) as Hdm.
  pose proof (Z.mod_pos_bound N D HD) as Hr.
  destruct (Z.ltb_spec (2 * (N mod D)) D);
    [|destruct (Z.ltb_spec D (2 * (N mod D))); [|destruct (Z.even (N / D))]];
    nia.
Qed.

Lemma round_half_even_nearest (N D j : Z) :
  (0 < D)%Z →
  (Z.abs (round_half_even N D * D - N) <= Z.abs (j * D - N))%Z.
Proof.
  intros HD. pose proof (round_half_even_near N D HD) as Hnear.
  destruct (Z.eq_dec j (round_half_even N D)) as [->|Hne]; [lia|].
  nia.
Qed.

Lemma round_half_even_tie (N D j : Z) :
  (0 < D)%Z →
  j ≠ round_half_even N D →
  Z.abs (round_half_even N D * D - N) = Z.abs (j * D - N) →
  Z.even (round_half_even N D) = true.
Proof.
  intros HD. unfold round_half_even.
  pose proof (Z.div_mod N D ltac:(lia)) as Hdm.
  pose proof (Z.mod_pos_bound N D HD) as Hr.
  destruct (Z.ltb_spec (2 * (N mod D)) D);
    [|destruct (Z.ltb_spec D (2 * (N mod D)));
      [|destruct (Z.even (N / D)) eqn:Heven]].
  - intros Hne Heq. exfalso. nia.
  - intros Hne Heq. exfalso. nia.
  - done.
  - intros _ _. rewrite Z.even_add, Heven. done.
Qed.

Lemma binade_spec (a b : Z) :
  (0 < a)%Z → (a <= b)%Z →
  (binade a b <= 0)%Z
  ∧ (b <= a * 2 ^ (- binade a b) < 2 * b)%Z.
Proof.
  intros Ha Hab. unfold binade.
  pose proof (Z.log2_spec a Ha) as Hla.
  pose proof (Z.log2_spec b ltac:(lia)) as Hlb.
  pose proof (Z.log2_le_mono a b Hab) as Hmono.
  pose proof (Z.log2_nonneg a) as Hnn.
  set (la := Z.log2 a) in *. set (lb := Z.log2 b) in *.
  assert (2 ^ lb = 2 ^ la * 2 ^ (lb - la))%Z as Hpow.
  { rewrite <- Z.pow_add_r by lia. f_equal; lia. }
  assert (2 ^ Z.succ la = 2 * 2 ^ la)%Z as Hsa by (apply Z.pow_succ_r; lia).
  assert (2 ^ Z.succ lb = 2 * 2 ^ lb)%Z as Hsb by (apply Z.pow_succ_r; lia).
  assert (0 < 2 ^ la)%Z as Hpa by (apply Z.pow_pos_nonneg; lia).
  assert (0 < 2 ^ (lb - la))%Z as Hpd by (apply Z.pow_pos_nonneg; lia).
  destruct (Z.leb_spec (b * 2 ^ la) (a * 2 ^ lb)) as [Hle|Hgt].
  - split; [lia|].
    replace (- (la - lb))%Z with (lb - la)%Z by lia.
    rewrite Hpow in *. nia.
  - split; [lia|].
    replace (- (la - lb - 1))%Z with (Z.succ (lb - la)) by lia.
    rewrite Z.pow_succ_r by lia.
    rewrite Hpow in *. nia.
Qed.

(** For a quotient in (0, 1] the double is a mantissa of 53 bits over a
    power of two, at distance at most half a unit of the last place. *)
Lemma nearest_double_mantissa (a b : Z) :
  (0 < a)%Z → (a <= b)%Z →
  ∃ m k,
    (52 <= k)%Z
    ∧ m = round_half_even (a * 2 ^ k) b
    ∧ nearest_double a b = (m # Z.to_pos (2 ^ k))%Q
    ∧ (2 ^ 52 <= m <= 2 ^ 53)%Z
    ∧ (m <= 2 ^ k)%Z
    ∧ (2 * Z.abs (m * b - a * 2 ^ k) <= b)%Z
    ∧ (b * 2 ^ 52 <= a * 2 ^ k < 2 * b * 2 ^ 52)%Z.
Proof.
  intros Ha Hab.
  destruct (binade_spec a b Ha Hab) as (He & Hlow & Hhigh).
  exists (round_half_even (a * 2 ^ (52 - binade a b)) b), (52 - binade a b)%Z.
  pose proof (round_half_even_near (a * 2 ^ (52 - binade a b)) b ltac:(lia))
    as Hnear.
  assert (2 ^ (52 - binade a b) = 2 ^ 52 * 2 ^ (- binade a b))%Z as Hpow.
  { rewrite <- Z.pow_add_r by lia. f_equal; lia. }
  assert (0 < 2 ^ (- binade a b))%Z as Hpe by (apply Z.pow_pos_nonneg; lia).
  set (m := round_half_even (a * 2 ^ (52 - binade a b)) b) in *.
  split; [lia|]. split; [done|]. split.
  { unfold nearest_double. rewrite (proj2 (Z.eqb_neq a 0)) by lia.
    cbn zeta. by rewrite (proj2 (Z.leb_le 0 (52 - binade a b))) by lia. }
  rewrite Hpow in *.
  set (S := (a * 2 ^ (- binade a b))%Z) in *.
  assert (a * (2 ^ 52 * 2 ^ (- binade a b)) = S * 2 ^ 52)%Z as HN
    by (unfold S; ring).
  rewrite HN in *.
  change (2 ^ 53)%Z with (2 * 2 ^ 52)%Z.
  remember (2 ^ 52)%Z as T eqn:HT.
  assert (0 < T)%Z as HTpos by (subst T; done).
  assert (2 * T - 1 <= 2 * m)%Z as Hm1 by nia.
  assert (2 * m <= 4 * T + 1)%Z as Hm2 by nia.
  assert (2 * m <= 2 * (T * 2 ^ (- binade a b)) + 1)%Z as Hm3.
  { assert (S * T <= b * (T * 2 ^ (- binade a b)))%Z by (unfold S; nia).
    nia. }
  split; [lia|]. split; [lia|]. split; [done|]. nia.
Qed.

Lemma Zpos_of_nat (b : nat) : b ≠ 0 → Z.pos (Pos.of_nat b) = Z.of_nat b.
Proof. destruct b as [|b]; [done|]. intros _. rewrite <- Pos.of_nat_succ. lia. Qed.

Lemma Zpos_pow2 (k : Z) : (0 <= k)%Z → Z.pos (Z.to_pos (2 ^ k)) = (2 ^ k)%Z.
Proof. intros Hk. apply Z2Pos.id. by apply Z.pow_pos_nonneg. Qed.

(** The double of a quotient of two lengths in [0, 1]: within a relative
    error of 2^-53 of the quotient, in [0, 1], and a nearest multiple of the
    unit of its mantissa. *)
Lemma true_div_double_spec (a b : nat) :
  b ≠ 0 → a ≤ b →
  ∃ score,
    true_div_double a b = Return score
    ∧ (Qabs (score - (Z.of_nat a # Pos.of_nat b))
       <= (Z.of_nat a # Pos.of_nat b) * (1 # 2 ^ 53))%Q
    ∧ (0 <= score <= 1)%Q
    ∧ (a = 0 → score = 0%Q)
    ∧ (a ≠ 0 →
       ∃ m k,
         (2 ^ 52 <= m <= 2 ^ 53)%Z
         ∧ score = (m # Z.to_pos (2 ^ k))%Q
         ∧ (∀ j, (Qabs (score - (Z.of_nat a # Pos.of_nat b))
                  <= Qabs ((j # Z.to_pos (2 ^ k))
                           - (Z.of_nat a # Pos.of_nat b)))%Q)
         ∧ (∀ j, j ≠ m →
                 (Qabs (score - (Z.of_nat a # Pos.of_nat b))
                  == Qabs ((j # Z.to_pos (2 ^ k))
                           - (Z.of_nat a # Pos.of_nat b)))%Q →
                 Z.even m = true)).
Proof.
  intros Hb Hab. unfold true_div_double. rewrite decide_False by done.
  eexists. split; [reflexivity|].
  pose proof (Zpos_of_nat b Hb) as Hpb.
  destruct (decide (a = 0)) as [->|Ha].
  { cbn [Z.of_nat nearest_double Z.eqb].
    split; [by vm_compute|]. split; [split; by vm_compute|].
    split; [done|]. by intros []. }
  destruct (nearest_double_mantissa (Z.of_nat a) (Z.of_nat b))
    as (m & k & Hk & Hm & -> & Hbits & Hone & Hnear & Hlow & _); [lia..|].
  pose proof (Zpos_pow2 k ltac:(lia)) as HP.
  assert (0 < 2 ^ k)%Z as Hpk by (apply Z.pow_pos_nonneg; lia).
  split.
  { unfold Qle, Qabs, Qminus, Qplus, Qopp, Qmult. cbn [Qnum Qden].
    rewrite !Pos2Z.inj_mul, HP, Hpb.
    change (Z.pos (2 ^ 53)) with (2 * 2 ^ 52)%Z.
    nia. }
  split.
  { split; unfold Qle; cbn [Qnum Qden]; rewrite ?HP; lia. }
  split; [done|]. intros _.
  exists m, k. split; [done|]. split; [done|].
  assert (∀ j, (j * Z.of_nat b + - Z.of_nat a * 2 ^ k
                = j * Z.of_nat b - Z.of_nat a * 2 ^ k)%Z) as Hminus
    by (intros; ring).
  split.
  - intros j. unfold Qle, Qabs, Qminus, Qplus, Qopp. cbn [Qnum Qden].
    rewrite !Pos2Z.inj_mul, HP, Hpb, !Hminus.
    pose proof (round_half_even_nearest
                  (Z.of_nat a * 2 ^ k) (Z.of_nat b) j ltac:(lia)) as Hj.
    rewrite <- Hm in Hj.
    apply Z.mul_le_mono_nonneg_r; [lia | exact Hj].
  - intros j Hne. unfold Qeq, Qabs, Qminus, Qplus, Qopp. cbn [Qnum Qden].
    rewrite !Pos2Z.inj_mul, HP, Hpb, !Hminus. intros Heq.
    apply Z.mul_cancel_r in Heq; [|lia].
    rewrite Hm. rewrite Hm in Hne, Heq.
    by apply (round_half_even_tie _ (Z.of_nat b) j); [lia | |].
Qed.


(** ** The double of the quotient against 0.9

    The check [link_score < 0.9] compares two doubles. Below 2^49 current
    links it decides as the exact quotient against 9/10 does, which is how
    the calculator of the update mask is written above. *)
Lemma nearest_double_threshold : (9 # 10 < nearest_double 9 10)%Q.
Proof. by vm_compute. Qed.

Lemma nearest_double_below_threshold (a b : Z) :
  (0 <= a)%Z → (b < 2 ^ 49)%Z → (10 * a < 9 * b)%Z →
  (nearest_double a b < 9 # 10)%Q.
Proof.
  intros Ha Hb Hlt.
  destruct (Z.eq_dec a 0%Z) as [->|Hne]; [by vm_compute|].
  destruct (nearest_double_mantissa a b)
    as (m & k & Hk & _ & -> & Hbits & _ & Hnear & Hlow & _); [lia..|].
  pose proof (Zpos_pow2 k ltac:(lia)) as HP.
  unfold Qlt. cbn [Qnum Qden]. rewrite HP.
  assert (2 ^ k = 2 ^ 52 * 2 ^ (k - 52))%Z as Hpow.
  { rewrite <- Z.pow_add_r by lia. f_equal; lia. }
  assert (0 < 2 ^ (k - 52))%Z as Hpos by (apply Z.pow_pos_nonneg; lia).
  assert (5 * b < 2 ^ k)%Z as Hsmall.
  { rewrite Hpow. change (2 ^ 52)%Z with (8 * 2 ^ 49)%Z. nia. }
  assert (10 * (m * b) < 9 * 2 ^ k * b)%Z as Hmb by nia.
  nia.
Qed.

Lemma nearest_double_above_threshold (a b : Z) :
  (a <= b)%Z → (9 * b <= 10 * a)%Z → (0 < b)%Z →
  (nearest_double 9 10 <= nearest_double a b)%Q.
Proof.
  intros Hab Hge Hb.
  destruct (nearest_double_mantissa a b)
    as (m & k & Hk & _ & -> & Hbits & _ & Hnear & Hlow & Hhigh); [lia..|].
  pose proof (Zpos_pow2 k ltac:(lia)) as HP.
  assert (k = 52 ∨ k = 53)%Z as [->| ->].
  { destruct (Z.le_gt_cases k 53) as [?|Hbig]; [lia|]. exfalso.
    assert (2 ^ k = 2 ^ 54 * 2 ^ (k - 54))%Z as Hpow.
    { rewrite <- Z.pow_add_r by lia. f_equal; lia. }
    assert (0 < 2 ^ (k - 54))%Z as Hpos by (apply Z.pow_pos_nonneg; lia).
    rewrite Hpow in Hhigh. change (2 ^ 54)%Z with (4 * 2 ^ 52)%Z in Hhigh.
    assert (0 < 2 ^ 52)%Z by done. nia. }
  - change (2 ^ 52)%Z with 4503599627370496%Z in *.
    assert (a = b) as -> by lia.
    assert (m = 4503599627370496)%Z as -> by nia.
    by vm_compute.
  - assert (8106479329266893 <= m)%Z as Hm.
    { change (2 ^ 53)%Z with 9007199254740992%Z in Hnear. nia. }
    change (nearest_double 9 10)
      with (8106479329266893 # 9007199254740992)%Q.
    unfold Qle. cbn [Qnum Qden]. rewrite HP.
    change (2 ^ 53)%Z with 9007199254740992%Z. lia.
Qed.

Lemma true_div_double_threshold (a b : nat) :
  b ≠ 0 → a ≤ b → (Z.of_nat b < 2 ^ 49)%Z →
  ∃ score,
    true_div_double a b = Return score
    ∧ ((score < nearest_double 9 10)%Q
       ↔ (Z.of_nat a # Pos.of_nat b < link_threshold)%Q)
    ∧ ((score < link_threshold)%Q
       ↔ (Z.of_nat a # Pos.of_nat b < link_threshold)%Q).
Proof.
  intros Hb Hab Hsmall. unfold true_div_double. rewrite decide_False by done.
  eexists. split; [reflexivity|].
  pose proof (Zpos_of_nat b Hb) as Hpb.
  pose proof nearest_double_threshold as Hthreshold.
  assert ((Z.of_nat a # Pos.of_nat b < link_threshold)%Q
          ↔ (10 * Z.of_nat a < 9 * Z.of_nat b)%Z) as ->.
  { unfold Qlt, link_threshold. cbn [Qnum Qden]. rewrite Hpb. lia. }
  destruct (Z.lt_ge_cases (10 * Z.of_nat a) (9 * Z.of_nat b)) as [Hlt|Hge].
  - pose proof (nearest_double_below_threshold
                  (Z.of_nat a) (Z.of_nat b) ltac:(lia) Hsmall Hlt)
      as Hbelow.
    split; (split; [done|]); intros _; [|done].
    exact (Qlt_trans _ _ _ Hbelow Hthreshold).
  - pose proof (nearest_double_above_threshold
                  (Z.of_nat a) (Z.of_nat b) ltac:(lia) Hge ltac:(lia))
      as Habove.
    split; split; try lia; intros Hscore; exfalso.
    + by apply Qle_not_lt in Habove.
    + apply Qle_not_lt in Habove. apply Habove.
      exact (Qlt_trans _ _ _ Hscore Hthreshold).
Qed.
Section Properties.

Context {FieldTranslation : Type} `{Countable FieldTranslation}.
Context {Connection : Type} `{Countable Connection}.

Local Abbreviation attrs_t := (EntityAttrs Connection).
Local Abbreviation entity_t := (Entity FieldTranslation Connection).
Local Abbreviation virtual_t := (VirtualEntity FieldTranslation Connection).
Local Abbreviation reporting_t := (ReportingEntity FieldTranslation Connection).
Local Abbreviation operation_t := (EntityOperation FieldTranslation Connection).
Local Abbreviation model_t := (Model FieldTranslation Connection).

Implicit Types (model current_model updated_model : model_t).
Implicit Types (e import_entity export_entity : entity_t).
Implicit Types (operations : list operation_t).
Implicit Types (mask : list EntityUpdateMaskAttribute).

(** ** The link score *)

Lemma GetLinkScore_Return (current_links updated_links : list FieldTranslation) :
  current_links ≠ [] →
  _GetLinkScore current_links updated_links
  = Return (Z.of_nat (size ((list_to_set updated_links : gset FieldTranslation)
                              ∩ list_to_set current_links))
            # Pos.of_nat (size (list_to_set current_links : gset FieldTranslation)))%Q.
Proof.
  intros Hne. apply size_list_to_set_pos in Hne.
  unfold _GetLinkScore. rewrite true_div_Return by done.
  cbn. unfold Return. f_equal. by apply quotient_Qmake.
Qed.

Lemma size_intersection_filter (current_links updated_links : list FieldTranslation) :
  size ((list_to_set updated_links : gset FieldTranslation)
          ∩ list_to_set current_links)
  = length (filter (λ link, link ∈ updated_links) (remove_dups current_links)).
Proof.
  rewrite <- (size_list_to_set (C := gset FieldTranslation)
                (filter (λ link, link ∈ updated_links) (remove_dups current_links)))
    by apply NoDup_filter, NoDup_remove_dups.
  f_equal. apply set_eq. intros x.
  rewrite elem_of_intersection, !elem_of_list_to_set, list_elem_of_filter,
    elem_of_remove_dups.
  tauto.
Qed.

Lemma size_list_to_set_remove_dups (l : list FieldTranslation) :
  size (list_to_set l : gset FieldTranslation) = length (remove_dups l).
Proof.
  rewrite <- (size_list_to_set (C := gset FieldTranslation) (remove_dups l))
    by apply NoDup_remove_dups.
  f_equal. apply set_eq. intros x.
  by rewrite !elem_of_list_to_set, elem_of_remove_dups.
Qed.

Lemma GetLinkScore_ratio (current_links updated_links : list FieldTranslation) :
  current_links ≠ [] →
  _GetLinkScore current_links updated_links
  = Return (link_overlap_ratio current_links updated_links).
Proof.
  intros Hne. rewrite GetLinkScore_Return by done. unfold link_overlap_ratio.
  by rewrite size_intersection_filter, size_list_to_set_remove_dups.
Qed.

Lemma GetLinkScore_double_Return
    (current_links updated_links : list FieldTranslation) :
  current_links ≠ [] →
  _GetLinkScore_double current_links updated_links
  = Return (nearest_double
              (Z.of_nat (size ((list_to_set updated_links
                                  : gset FieldTranslation)
                                 ∩ list_to_set current_links)))
              (Z.of_nat (size (list_to_set current_links
                                 : gset FieldTranslation)))).
Proof.
  intros Hne. apply size_list_to_set_pos in Hne.
  unfold _GetLinkScore_double, true_div_double.
  by rewrite decide_False by done.
Qed.

(** ** The update masks *)

Lemma reporting_mask_eq (current_entity updated_entity : reporting_t) :
  DetermineReportingEntityUpdateMask current_entity updated_entity
  = shared_mask current_entity updated_entity
    ++ (if decide ((list_to_set (translations updated_entity)
                      : gset FieldTranslation)
                     ∩ list_to_set (translations current_entity)
                   ≠ list_to_set (translations current_entity))
        then [TRANSLATION] else []).
Proof.
  unfold DetermineReportingEntityUpdateMask, shared_mask.
  repeat case_decide; reflexivity.
Qed.

Lemma virtual_mask_with_eq scorer (current_entity updated_entity : virtual_t) :
  DetermineVirtualEntityUpdateMaskWith scorer current_entity updated_entity
  = links_changed ←
      (if truthy (links current_entity) then
         if truthy (links updated_entity) then
           link_score ← scorer (links current_entity) (links updated_entity);
           Return (if Qlt_le_dec link_score link_threshold then true else false)
         else Return false
       else Return false);
    Return (shared_mask current_entity updated_entity
              ++ (if links_changed : bool then [LINKS] else [])).
Proof.
  unfold DetermineVirtualEntityUpdateMaskWith, shared_mask.
  destruct (if truthy (links current_entity) then _ else _) as [e|[]];
    cbn; [reflexivity | |]; repeat case_decide; reflexivity.
Qed.

Lemma virtual_mask_Return (current_entity updated_entity : virtual_t) :
  ∃ links_changed : bool,
    DetermineVirtualEntityUpdateMask current_entity updated_entity
    = Return (shared_mask current_entity updated_entity
                ++ (if links_changed then [LINKS] else []))
    ∧ (links_changed = true ↔
         links current_entity ≠ [] ∧ links updated_entity ≠ []
         ∧ (link_overlap_ratio (links current_entity) (links updated_entity)
              < link_threshold)%Q).
Proof.
  unfold DetermineVirtualEntityUpdateMask. rewrite virtual_mask_with_eq.
  destruct (links current_entity) as [|l ls] eqn:Hc; cbn [truthy].
  { exists false. split; [done|]. naive_solver. }
  destruct (links updated_entity) as [|l' ls'] eqn:Hu; cbn [truthy].
  { exists false. split; [done|]. naive_solver. }
  rewrite GetLinkScore_ratio by done. cbn.
  destruct (Qlt_le_dec _ _) as [Hlt|Hge].
  - exists true. split; [done|]. naive_solver.
  - exists false. split; [done|]. split; [done|].
    intros (_ & _ & Hlt). exfalso. by eapply Qlt_not_le.
Qed.

(** With fewer than 2^49 distinct current links the calculator returns the
    same mask on the double of the quotient as on the exact quotient. *)
Lemma virtual_mask_double_scorer (current_entity updated_entity : virtual_t) :
  (Z.of_nat (size (list_to_set (links current_entity)
                     : gset FieldTranslation)) < 2 ^ 49)%Z →
  DetermineVirtualEntityUpdateMaskWith _GetLinkScore_double
    current_entity updated_entity
  = DetermineVirtualEntityUpdateMask current_entity updated_entity.
Proof.
  intros Hsmall.
  unfold DetermineVirtualEntityUpdateMask. rewrite !virtual_mask_with_eq.
  destruct (links current_entity) as [|l ls] eqn:Hc; cbn [truthy]; [done|].
  destruct (links updated_entity) as [|l' ls'] eqn:Hu; cbn [truthy]; [done|].
  rewrite GetLinkScore_Return, GetLinkScore_double_Return by done.
  destruct (true_div_double_threshold
              (size ((list_to_set (l' :: ls') : gset FieldTranslation)
                       ∩ list_to_set (l :: ls)))
              (size (list_to_set (l :: ls) : gset FieldTranslation)))
    as (score & Hscore & _ & Hiff);
    [by apply size_list_to_set_pos | apply subseteq_size; set_solver | done |].
  unfold true_div_double in Hscore.
  rewrite decide_False in Hscore by by apply size_list_to_set_pos.
  injection Hscore as <-.
  cbn. destruct (Qlt_le_dec _ _) as [Hd|Hd], (Qlt_le_dec _ _) as [He|He];
    try done; exfalso.
  - apply Hiff in Hd. by eapply Qlt_not_le.
  - apply Hiff in He. by eapply Qlt_not_le.
Qed.

Lemma elem_of_shared_mask_LINKS (c u : attrs_t) : LINKS ∉ shared_mask c u.
Proof.
  unfold shared_mask. repeat case_decide; set_solver.
Qed.

Lemma elem_of_shared_mask_TRANSLATION (c u : attrs_t) :
  TRANSLATION ∉ shared_mask c u.
Proof.
  unfold shared_mask. repeat case_decide; set_solver.
Qed.

Lemma elem_of_shared_mask_CONNECTIONS (c u : attrs_t) :
  CONNECTIONS ∈ shared_mask c u
  ↔ ∃ x, x ∈ connections u ∧ x ∉ connections c.
Proof.
  rewrite <- (exist_proper (λ x, x ∈ (list_to_set (connections u) : gset Connection)
                              ∧ x ∉ (list_to_set (connections c) : gset Connection)))
    by (intros x; by rewrite !elem_of_list_to_set).
  rewrite <- difference_nonempty_iff.
  unfold shared_mask. repeat case_decide; set_solver.
Qed.

Lemma shared_mask_nil (c u : attrs_t) :
  shared_mask c u = []
  ↔ code u = code c ∧ type_name u = type_name c
    ∧ ∀ x, x ∈ connections u → x ∈ connections c.
Proof.
  assert ((∀ x, x ∈ connections u → x ∈ connections c)
          ↔ ¬ ((list_to_set (connections u) : gset Connection)
                 ∖ list_to_set (connections c) ≠ ∅)) as ->.
  { rewrite difference_nonempty_iff. split.
    - intros Hall (x & Hx & Hn). rewrite elem_of_list_to_set in Hx, Hn. auto.
    - intros Hno x Hx. destruct (decide (x ∈ connections c)); [done|].
      exfalso. apply Hno. exists x. by rewrite !elem_of_list_to_set. }
  unfold shared_mask. repeat case_decide; naive_solver.
Qed.

(** ** Lookup by guid *)

Lemma GetEntity_Return_inv model guid e :
  GetEntity model guid = Return e → e ∈ entities model ∧ bc_guid e = guid.
Proof.
  unfold GetEntity. intros Hget.
  destruct (list_find _ _) as [[i e']|] eqn:Hfind; [|discriminate].
  injection Hget as ->. apply list_find_Some in Hfind as (Hi & Hg & _).
  split; [by eapply list_elem_of_lookup_2 | done].
Qed.

Lemma GetEntity_member model guid :
  guid ∈ guids_of model → ∃ e, GetEntity model guid = Return e.
Proof.
  unfold guids_of, GetEntity. rewrite elem_of_list_to_set, list_elem_of_fmap.
  intros (e & -> & He).
  destruct (list_find _ _) as [[i e']|] eqn:Hfind; [by eexists|].
  exfalso. rewrite list_find_None, Forall_forall in Hfind. by eapply Hfind.
Qed.

Lemma GetEntity_not_member model guid :
  guid ∉ guids_of model → GetEntity model guid = Raise (KeyError guid).
Proof.
  intros Hnot. destruct (GetEntity model guid) as [e|e] eqn:Hget.
  - unfold GetEntity in Hget. by destruct (list_find _ _) as [[]|]; simplify_eq.
  - apply GetEntity_Return_inv in Hget as [He <-]. exfalso. apply Hnot.
    unfold guids_of. rewrite elem_of_list_to_set, list_elem_of_fmap. eauto.
Qed.

(** ** One iteration of the differ *)

Lemma body_absent current_model operations e :
  bc_guid e ∉ guids_of current_model →
  DetermineEntityOperations_body current_model operations e
  = Return (operations ++ [mkEntityOperation e ADD None]).
Proof.
  intros Hnot. unfold DetermineEntityOperations_body.
  by rewrite decide_True.
Qed.

(** What an iteration appends for an entity whose guid is in the current
    model, from the mask of the pair. *)
Lemma body_present current_model operations e export_entity :
  GetEntity current_model (bc_guid e) = Return export_entity →
  DetermineEntityOperations_body current_model operations e
  = update_mask ← pair_update_mask export_entity e;
    Return (operations
              ++ (if truthy update_mask
                  then [mkEntityOperation e UPDATE (Some update_mask)]
                  else [])).
Proof.
  intros Hget. unfold DetermineEntityOperations_body, pair_update_mask.
  rewrite decide_False.
  - rewrite Hget. cbn.
    destruct (match e with Virtual _ => _ | Reporting _ => _ end) as [err|mask];
      cbn; [done|].
    destruct (truthy mask); [done | by rewrite app_nil_r].
  - intros Hnot. rewrite GetEntity_not_member in Hget by done. discriminate.
Qed.

Lemma pair_update_mask_Return export_entity e :
  same_variant e export_entity = true →
  ∃ mask, pair_update_mask export_entity e = Return mask.
Proof.
  destruct e as [u|u], export_entity as [c|c]; try discriminate; intros _; cbn.
  - destruct (virtual_mask_Return c u) as (b & -> & _). by eexists.
  - by eexists.
Qed.

Lemma pair_update_mask_nil export_entity e mask :
  pair_update_mask export_entity e = Return mask →
  mask = [] ↔ pair_unchanged export_entity e.
Proof.
  unfold pair_unchanged.
  destruct e as [u|u], export_entity as [c|c]; cbn; try discriminate.
  - destruct (virtual_mask_Return c u) as (b & -> & Hb).
    intros [= <-]. rewrite app_nil, shared_mask_nil.
    assert ((if b then [LINKS] else []) = [] ↔ b = false) as ->
      by (destruct b; naive_solver).
    assert (b = false ↔
            links c = [] ∨ links u = []
            ∨ ∃ link_score,
                _GetLinkScore (links c) (links u) = Return link_score
                ∧ (link_threshold <= link_score)%Q) as ->; [|tauto].
    destruct (decide (links c = [])) as [Hc|Hc]; [by destruct b; naive_solver|].
    destruct (decide (links u = [])) as [Hu|Hu]; [by destruct b; naive_solver|].
    rewrite GetLinkScore_ratio by done.
    destruct b.
    + destruct Hb as [Hb _]. destruct (Hb eq_refl) as (_ & _ & Hlt).
      split; [done|]. intros [?|[?|(s & [= <-] & Hle)]]; [done..|].
      exfalso. by eapply Qlt_not_le.
    + split; [|done]. intros _. right. right. eexists. split; [done|].
      apply Qnot_lt_le. intros Hlt. destruct Hb as [_ Hb].
      by specialize (Hb (conj Hc (conj Hu Hlt))).
  - intros [= <-]. rewrite reporting_mask_eq, app_nil, shared_mask_nil.
    assert ((if decide ((list_to_set (translations u) : gset FieldTranslation)
                          ∩ list_to_set (translations c)
                        ≠ list_to_set (translations c))
             then [TRANSLATION] else []) = []
            ↔ ∀ translation, translation ∈ translations c →
                             translation ∈ translations u) as ->; [|tauto].
    case_decide as Hd.
    + split; [done|]. intros Hall. exfalso.
      apply intersection_neq_iff in Hd as (t & Ht & Hn).
      rewrite elem_of_list_to_set in Ht, Hn. auto.
    + split; [|done]. intros _ t Ht.
      assert (t ∈ (list_to_set (translations u) : gset FieldTranslation)
                    ∩ list_to_set (translations c)) as Hin
        by (rewrite Hd; by apply elem_of_list_to_set).
      set_solver.
Qed.

Lemma body_conflict current_model operations e :
  variant_conflict current_model e = true →
  DetermineEntityOperations_body current_model operations e
  = Raise (TypeError (variant_conflict_message (bc_guid e))).
Proof.
  unfold variant_conflict. intros Hc.
  destruct (GetEntity current_model (bc_guid e)) as [err|export] eqn:Hget;
    [discriminate|].
  rewrite (body_present _ _ _ export) by done.
  by destruct e, export.
Qed.

(** Without a variant conflict an iteration returns, and only appends
    operations that wrap the entity of the iteration. *)
Lemma body_no_conflict current_model operations e :
  variant_conflict current_model e = false →
  ∃ emitted,
    DetermineEntityOperations_body current_model operations e
    = Return (operations ++ emitted)
    ∧ DetermineEntityOperations_body current_model [] e = Return emitted
    ∧ Forall (λ op, entity op = e) emitted.
Proof.
  unfold variant_conflict. intros Hc.
  destruct (GetEntity current_model (bc_guid e)) as [err|export] eqn:Hget.
  - assert (bc_guid e ∉ guids_of current_model) as Hnot.
    { intros Hin. apply GetEntity_member in Hin as [x Hx].
      rewrite Hget in Hx. discriminate. }
    rewrite !body_absent by done. eexists. split; [done|]. split; [done|].
    by repeat constructor.
  - rewrite !(body_present _ _ _ export) by done.
    destruct (pair_update_mask_Return export e) as [mask ->].
    { by destruct (same_variant e export). }
    cbn. eexists. split; [done|]. split; [done|].
    destruct (truthy _); by repeat constructor.
Qed.

Lemma body_Return_inv current_model operations e result :
  DetermineEntityOperations_body current_model operations e = Return result →
  ∃ emitted,
    result = operations ++ emitted
    ∧ DetermineEntityOperations_body current_model [] e = Return emitted
    ∧ Forall (λ op, entity op = e) emitted.
Proof.
  intros Hbody.
  destruct (variant_conflict current_model e) eqn:Hc.
  - rewrite body_conflict in Hbody by done. discriminate.
  - destruct (body_no_conflict current_model operations e Hc)
      as (emitted & Heq & ? & ?).
    exists emitted. rewrite Heq in Hbody. by injection Hbody as <-.
Qed.

(** ** The loop of the differ *)

Lemma operations_for_app guid operations (emitted : list operation_t) :
  operations_for guid (operations ++ emitted)
  = operations_for guid operations ++ operations_for guid emitted.
Proof. apply filter_app. Qed.

Lemma operations_for_same e (emitted : list operation_t) :
  Forall (λ op, entity op = e) emitted →
  operations_for (bc_guid e) emitted = emitted.
Proof.
  induction 1 as [|op ops Hop _ IH]; [done|].
  unfold operations_for in *. rewrite filter_cons_True by by rewrite Hop.
  by rewrite IH.
Qed.

Lemma operations_for_other guid e (emitted : list operation_t) :
  Forall (λ op, entity op = e) emitted → bc_guid e ≠ guid →
  operations_for guid emitted = [].
Proof.
  intros Hall Hne. induction Hall as [|op ops Hop _ IH]; [done|].
  unfold operations_for in *. rewrite filter_cons_False by by rewrite Hop.
  done.
Qed.

Lemma differ_loop_other current_model (es : list entity_t) operations result guid :
  for_each es operations (DetermineEntityOperations_body current_model)
  = Return result →
  guid ∉ (λ e : entity_t, bc_guid e) <$> es →
  operations_for guid result = operations_for guid operations.
Proof.
  revert operations. induction es as [|e' es IH]; intros operations Hloop Hnot.
  - by injection Hloop as <-.
  - cbn in Hloop. apply bind_Return_inv in Hloop as (ops' & Hbody & Hloop).
    apply body_Return_inv in Hbody as (emitted & -> & _ & Hall).
    rewrite fmap_cons, not_elem_of_cons in Hnot. destruct Hnot as [Hne Hnot].
    rewrite (IH _ Hloop Hnot), operations_for_app.
    rewrite (operations_for_other guid e' emitted Hall) by auto.
    apply app_nil_r.
Qed.

Lemma differ_loop_entity current_model (es : list entity_t) operations result e :
  for_each es operations (DetermineEntityOperations_body current_model)
  = Return result →
  NoDup ((λ e : entity_t, bc_guid e) <$> es) → e ∈ es →
  ∃ emitted,
    DetermineEntityOperations_body current_model [] e = Return emitted
    ∧ operations_for (bc_guid e) result
      = operations_for (bc_guid e) operations ++ emitted.
Proof.
  revert operations.
  induction es as [|e' es IH]; intros operations Hloop Hdup Hin.
  - by apply elem_of_nil in Hin.
  - cbn in Hloop. apply bind_Return_inv in Hloop as (ops' & Hbody & Hloop).
    apply body_Return_inv in Hbody as (emitted & -> & Hemit & Hall).
    rewrite fmap_cons in Hdup. apply NoDup_cons in Hdup as [Hfresh Hdup].
    apply elem_of_cons in Hin as [->|Hin].
    + exists emitted. split; [done|].
      rewrite (differ_loop_other _ _ _ _ _ Hloop Hfresh), operations_for_app.
      by rewrite (operations_for_same e' emitted Hall).
    + destruct (IH _ Hloop Hdup Hin) as (emitted' & Hemit' & ->).
      exists emitted'. split; [done|].
      rewrite operations_for_app, (operations_for_other _ e' emitted Hall);
        [by rewrite app_nil_r|].
      intros Heq. apply Hfresh. rewrite Heq.
      apply list_elem_of_fmap. by exists e.
Qed.

Lemma differ_loop_Return current_model (es : list entity_t) operations :
  Forall (λ e, variant_conflict current_model e = false) es →
  ∃ result,
    for_each es operations (DetermineEntityOperations_body current_model)
    = Return result.
Proof.
  intros Hall. revert operations.
  induction Hall as [|e es He _ IH]; intros operations; [by eexists|].
  destruct (body_no_conflict current_model operations e He) as (em & Hb & _).
  cbn. rewrite Hb. cbn. apply IH.
Qed.

(** The differ returns a list when no entity of the updated model has a
    variant conflict. *)
Lemma differ_returns_without_conflict current_model updated_model :
  Forall (λ e, variant_conflict current_model e = false)
         (entities updated_model) →
  ∃ result,
    DetermineEntityOperations current_model updated_model = Return result.
Proof. apply differ_loop_Return. Qed.

Lemma differ_loop_Raise current_model (es : list entity_t) e :
  e ∈ es → variant_conflict current_model e = true →
  ∃ before first after,
    es = before ++ first :: after
    ∧ Forall (λ e, variant_conflict current_model e = false) before
    ∧ variant_conflict current_model first = true
    ∧ ∀ operations,
        for_each es operations (DetermineEntityOperations_body current_model)
        = Raise (TypeError (variant_conflict_message (bc_guid first))).
Proof.
  induction es as [|e' es IH]; intros Hin Hc; [by apply elem_of_nil in Hin|].
  destruct (variant_conflict current_model e') eqn:Hc'.
  - exists [], e', es. split; [done|]. split; [done|]. split; [done|].
    intros operations. cbn. by rewrite body_conflict.
  - apply elem_of_cons in Hin as [->|Hin]; [congruence|].
    destruct (IH Hin Hc) as (before & first & after & -> & Hall & Hf & Hloop).
    exists (e' :: before), first, after.
    split; [done|]. split; [by constructor|]. split; [done|].
    intros operations.
    destruct (body_no_conflict current_model operations e' Hc') as (em & Hb & _).
    cbn. rewrite Hb. cbn. apply Hloop.
Qed.

(** ** The reconciler *)

(** The dictionary holds, for each guid, the last generated operation with
    that guid. *)
Lemma generated_operation_map_lookup (generated_operations : list operation_t) guid :
  generated_operation_map_of generated_operations !! guid
  = last (operations_for guid generated_operations).
Proof.
  unfold generated_operation_map_of, operations_for.
  induction generated_operations as [|op ops IH] using rev_ind; [done|].
  rewrite foldl_app, filter_app. cbn [foldl].
  destruct (decide (bc_guid (entity op) = guid)) as [Heq|Hne].
  - rewrite Heq, lookup_insert_eq, filter_cons_True by done.
    cbn. by rewrite last_snoc.
  - rewrite lookup_insert_ne, filter_cons_False by done.
    cbn. by rewrite app_nil_r.
Qed.

Lemma last_operations_for guid (generated_operations : list operation_t) op :
  last (operations_for guid generated_operations) = Some op →
  op ∈ generated_operations ∧ bc_guid (entity op) = guid.
Proof.
  intros Hlast. apply last_Some_elem_of in Hlast.
  unfold operations_for in Hlast. by apply list_elem_of_filter in Hlast as [? ?].
Qed.

Lemma reconcile_loop_eq (generated_operations model_operations : list operation_t)
    return_operations :
  foldl (ReconcileOperations_body
           (generated_operation_map_of generated_operations))
        return_operations model_operations
  = return_operations
    ++ ((λ model_operation,
           match last (operations_for (bc_guid (entity model_operation))
                                      generated_operations) with
           | None => model_operation
           | Some generated_operation =>
               if decide (operation model_operation = DELETE)
               then model_operation else generated_operation
           end) <$> model_operations).
Proof.
  revert return_operations.
  induction model_operations as [|m ms IH]; intros return_operations.
  - by rewrite app_nil_r.
  - cbn [foldl fmap list_fmap]. rewrite IH. rewrite cons_middle, app_assoc.
    f_equal. unfold ReconcileOperations_body.
    rewrite generated_operation_map_lookup.
    destruct (last _) as [g|]; [|done].
    repeat case_decide; done.
Qed.

Lemma reconcile_eq (model_operations generated_operations : list operation_t) :
  ReconcileOperations model_operations generated_operations
  = (λ model_operation,
       match last (operations_for (bc_guid (entity model_operation))
                                  generated_operations) with
       | None => model_operation
       | Some generated_operation =>
           if decide (operation model_operation = DELETE)
           then model_operation else generated_operation
       end) <$> model_operations.
Proof. unfold ReconcileOperations. by rewrite reconcile_loop_eq. Qed.

(** The operation the reconciler emits at a position of the manual list. *)
Lemma reconcile_lookup (model_operations generated_operations : list operation_t)
    i model_operation :
  model_operations !! i = Some model_operation →
  ReconcileOperations model_operations generated_operations !! i
  = Some match last (operations_for (bc_guid (entity model_operation))
                                    generated_operations) with
         | None => model_operation
         | Some generated_operation =>
             if decide (operation model_operation = DELETE)
             then model_operation else generated_operation
         end.
Proof.
  intros Hi. by rewrite reconcile_eq, list_lookup_fmap, Hi.
Qed.

Lemma reconcile_lookup_cases
    (model_operations generated_operations : list operation_t) i model_operation :
  model_operations !! i = Some model_operation →
  ∃ r,
    ReconcileOperations model_operations generated_operations !! i = Some r
    ∧ bc_guid (entity r) = bc_guid (entity model_operation)
    ∧ (r = model_operation ∨ r ∈ generated_operations).
Proof.
  intros Hi. rewrite (reconcile_lookup _ _ _ _ Hi).
  eexists. split; [done|].
  destruct (last _) as [g|] eqn:Hlast; [|by auto].
  apply last_operations_for in Hlast as [Hin Hguid].
  case_decide; auto.
Qed.

(** * The claims *)

(** C5. With non-empty current links the score is the double the division
    returns: the double nearest to the size of the intersection of the two
    link sets divided by the size of the current link set. It is within a
    relative error of 2^-53 of that quotient, which is the fraction of the
    distinct current links found among the updated links; it lies between 0
    and 1; it is 0 when no link is shared, and otherwise a mantissa of 53
    bits over a power of two, nearest to the quotient among the multiples of
    its unit, with an even mantissa on a tie. Three current links of which
    two survive score 6004799503160661 / 2^53, which is below 2/3 by
    1 / (3 * 2^53). *)
Theorem link_score_nearest_double
    (current_links updated_links : list FieldTranslation) :
  current_links ≠ [] →
  ∃ link_score,
    _GetLinkScore_double current_links updated_links = Return link_score
    ∧ link_score
      = nearest_double
          (Z.of_nat (size ((list_to_set updated_links : gset FieldTranslation)
                             ∩ list_to_set current_links)))
          (Z.of_nat (size (list_to_set current_links : gset FieldTranslation)))
    ∧ link_overlap_ratio current_links updated_links
      = (Z.of_nat (size ((list_to_set updated_links : gset FieldTranslation)
                           ∩ list_to_set current_links))
         # Pos.of_nat (size (list_to_set current_links
                               : gset FieldTranslation)))%Q
    ∧ (Qabs (link_score - link_overlap_ratio current_links updated_links)
       <= link_overlap_ratio current_links updated_links * (1 # 2 ^ 53))%Q
    ∧ (0 <= link_score <= 1)%Q
    ∧ ((list_to_set updated_links : gset FieldTranslation)
         ∩ list_to_set current_links = ∅ →
       link_score = 0%Q)
    ∧ ((list_to_set updated_links : gset FieldTranslation)
         ∩ list_to_set current_links ≠ ∅ →
       ∃ m k,
         (2 ^ 52 <= m <= 2 ^ 53)%Z
         ∧ link_score = (m # Z.to_pos (2 ^ k))%Q
         ∧ (∀ j, (Qabs (link_score
                        - link_overlap_ratio current_links updated_links)
                  <= Qabs ((j # Z.to_pos (2 ^ k))
                           - link_overlap_ratio current_links updated_links))%Q)
         ∧ (∀ j, j ≠ m →
                 (Qabs (link_score
                        - link_overlap_ratio current_links updated_links)
                  == Qabs ((j # Z.to_pos (2 ^ k))
                           - link_overlap_ratio current_links updated_links))%Q →
                 Z.even m = true))
    ∧ ∀ L1 L2 L3 L4,
        NoDup [L1; L2; L3; L4] →
        current_links = [L1; L2; L3] → updated_links = [L1; L2; L4] →
        link_score = (6004799503160661 # 9007199254740992)%Q
        ∧ ((2 # 3) - link_score == 1 # 27021597764222976)%Q.
Proof.
  intros Hne. pose proof (size_list_to_set_pos _ Hne) as Hpos.
  assert (link_overlap_ratio current_links updated_links
          = (Z.of_nat (size ((list_to_set updated_links
                                : gset FieldTranslation)
                               ∩ list_to_set current_links))
             # Pos.of_nat (size (list_to_set current_links
                                   : gset FieldTranslation)))%Q) as Hratio.
  { unfold link_overlap_ratio.
    by rewrite size_intersection_filter, size_list_to_set_remove_dups. }
  destruct (true_div_double_spec
              (size ((list_to_set updated_links : gset FieldTranslation)
                       ∩ list_to_set current_links))
              (size (list_to_set current_links : gset FieldTranslation)))
    as (link_score & Hscore & Herror & Hbounds & Hzero & Hmantissa);
    [done | apply subseteq_size; set_solver |].
  unfold true_div_double in Hscore. rewrite decide_False in Hscore by done.
  injection Hscore as Hscore.
  exists link_score. rewrite Hratio.
  split; [by rewrite GetLinkScore_double_Return, Hscore|].
  split; [done|]. split; [done|]. split; [done|]. split; [done|].
  split.
  { intros Hempty. apply Hzero. rewrite Hempty. apply size_empty. }
  split.
  { intros Hshared. apply Hmantissa. intros Hsize.
    by apply size_empty_inv, leibniz_equiv in Hsize. }
  intros L1 L2 L3 L4 Hdup -> ->. subst link_score.
  assert (L3 ≠ L4 ∧ L1 ≠ L2 ∧ NoDup [L1; L2; L3]) as (H34 & H12 & Hdup3).
  { rewrite !NoDup_cons in Hdup. rewrite !NoDup_cons. set_solver. }
  assert ((list_to_set [L1; L2; L4] : gset FieldTranslation)
            ∩ list_to_set [L1; L2; L3]
          = list_to_set [L1; L2]) as ->.
  { rewrite !NoDup_cons in Hdup. set_solver. }
  rewrite !size_list_to_set;
    [split; by vm_compute | done |].
  apply NoDup_cons. split; [set_solver | apply NoDup_singleton].
Qed.

(** C6. For a pair of virtual entities the calculator returns a mask, and
    LINKS is in it exactly when both link lists are non-empty and the score
    is below 0.9; when a side has no links, LINKS is not flagged and the mask
    is the same whatever the scorer would do, also one that raises: the
    scorer is not called, and no division by zero reaches the caller. *)
Theorem links_flag_iff (current_entity updated_entity : virtual_t) :
  ∃ mask,
    DetermineVirtualEntityUpdateMask current_entity updated_entity = Return mask
    ∧ (LINKS ∈ mask ↔
         links current_entity ≠ [] ∧ links updated_entity ≠ []
         ∧ ∃ link_score,
             _GetLinkScore (links current_entity) (links updated_entity)
             = Return link_score
             ∧ (link_score < link_threshold)%Q)
    ∧ (links current_entity = [] ∨ links updated_entity = [] →
       (LINKS ∉ mask)
       ∧ (∀ scorer,
            DetermineVirtualEntityUpdateMaskWith scorer
              current_entity updated_entity
            = Return mask)).
Proof.
  destruct (virtual_mask_Return current_entity updated_entity)
    as (b & Hmask & Hb).
  eexists. split; [exact Hmask|].
  assert (LINKS ∈ shared_mask current_entity updated_entity
                    ++ (if b then [LINKS] else []) ↔ b = true) as Hin.
  { pose proof (elem_of_shared_mask_LINKS current_entity updated_entity).
    destruct b; set_solver. }
  split.
  - rewrite Hin, Hb. split.
    + intros (Hc & Hu & Hlt). split; [done|]. split; [done|].
      eexists. split; [by apply GetLinkScore_ratio | done].
    + intros (Hc & Hu & s & Hs & Hlt). split; [done|]. split; [done|].
      rewrite GetLinkScore_ratio in Hs by done. by injection Hs as <-.
  - intros Hempty.
    assert (b = false) as ->.
    { destruct b; [|done]. destruct Hb as [Hb _].
      destruct (Hb eq_refl) as (? & ? & _). naive_solver. }
    split; [rewrite Hin; done|].
    intros scorer. rewrite virtual_mask_with_eq.
    destruct Hempty as [-> | ->]; [done|].
    by destruct (links current_entity).
Qed.

(** C8. For a pair of reporting entities TRANSLATION is in the mask exactly
    when a translation of the current entity is missing from the updated
    one; when every current translation is kept, translations that only the
    updated entity has do not set the flag. *)
Theorem translation_flag_iff_lost (current_entity updated_entity : reporting_t) :
  (TRANSLATION ∈ DetermineReportingEntityUpdateMask current_entity updated_entity
   ↔ ∃ translation, translation ∈ translations current_entity
                    ∧ translation ∉ translations updated_entity)
  ∧ ((∀ translation, translation ∈ translations current_entity →
                       translation ∈ translations updated_entity) →
     TRANSLATION ∉ DetermineReportingEntityUpdateMask
                     current_entity updated_entity).
Proof.
  assert (TRANSLATION ∈ DetermineReportingEntityUpdateMask
                          current_entity updated_entity
          ↔ ∃ translation, translation ∈ translations current_entity
                           ∧ translation ∉ translations updated_entity) as Hiff.
  { rewrite <- (exist_proper
      (λ t, t ∈ (list_to_set (translations current_entity) : gset FieldTranslation)
            ∧ t ∉ (list_to_set (translations updated_entity) : gset FieldTranslation)))
      by (intros t; by rewrite !elem_of_list_to_set).
    rewrite <- intersection_neq_iff, reporting_mask_eq.
    pose proof (elem_of_shared_mask_TRANSLATION current_entity updated_entity).
    case_decide; set_solver. }
  split; [exact Hiff|].
  intros Hkept. rewrite Hiff. intros (t & Hin & Hnot). auto.
Qed.

(** C7. In both calculators CONNECTIONS is in the mask exactly when the
    updated entity has a connection the current entity has not; an updated
    entity that is the current one with connections removed has an empty
    mask, and the differ emits no operation for it. *)
Theorem connections_flag_additions_only :
  (∀ current_entity updated_entity : reporting_t,
     CONNECTIONS ∈ DetermineReportingEntityUpdateMask current_entity updated_entity
     ↔ ∃ connection, connection ∈ connections updated_entity
                     ∧ connection ∉ connections current_entity)
  ∧ (∀ current_entity updated_entity : virtual_t,
       ∃ mask,
         DetermineVirtualEntityUpdateMask current_entity updated_entity
         = Return mask
         ∧ (CONNECTIONS ∈ mask
            ↔ ∃ connection, connection ∈ connections updated_entity
                            ∧ connection ∉ connections current_entity))
  ∧ (∀ current_model updated_model export_entity kept,
       kept ⊆ connections export_entity →
       GetEntity current_model (bc_guid export_entity) = Return export_entity →
       with_connections export_entity kept ∈ entities updated_model →
       pair_update_mask export_entity (with_connections export_entity kept)
       = Return []
       ∧ (∀ operations,
            DetermineEntityOperations_body current_model operations
              (with_connections export_entity kept)
            = Return operations)
       ∧ (∀ result,
            DetermineEntityOperations current_model updated_model
            = Return result →
            NoDup ((λ e : entity_t, bc_guid e) <$> entities updated_model) →
            operations_for (bc_guid export_entity) result = [])).
Proof.
  split; [|split].
  - intros c u. rewrite reporting_mask_eq, elem_of_app.
    rewrite elem_of_shared_mask_CONNECTIONS.
    case_decide; set_solver.
  - intros c u. destruct (virtual_mask_Return c u) as (b & -> & _).
    eexists. split; [done|].
    rewrite elem_of_app, elem_of_shared_mask_CONNECTIONS.
    destruct b; set_solver.
  - intros current_model updated_model export kept Hkept Hget Hin.
    set (import := with_connections export kept) in *.
    assert (bc_guid import = bc_guid export) as Hguid by by destruct export.
    assert (pair_update_mask export import = Return []) as Hmask.
    { destruct (pair_update_mask_Return export import) as [mask Hmask];
        [by destruct export|].
      rewrite Hmask. f_equal. apply (pair_update_mask_nil _ _ _ Hmask).
      unfold pair_unchanged. subst import.
      destruct export as [c|c]; cbn; (split; [done|]); (split; [done|]);
        (split; [exact Hkept|]).
      + destruct (links c) as [|l ls] eqn:Hl; [by left|]. right. right.
        eexists. split; [by apply GetLinkScore_Return|].
        rewrite intersection_idemp_L. 
        unfold link_threshold, Qle. cbn [Qnum Qden].
        pose proof (size_list_to_set_pos (l :: ls)) as Hpos.
        destruct (size _) as [|n]; [by exfalso; apply Hpos|].
        rewrite <- Pos.of_nat_succ. lia.
      + done. }
    assert (∀ operations,
              DetermineEntityOperations_body current_model operations import
              = Return operations) as Hbody.
    { intros operations. rewrite (body_present _ _ _ export) by by rewrite Hguid.
      rewrite Hmask. cbn. by rewrite app_nil_r. }
    split; [done|]. split; [done|].
    intros result Hres Hdup.
    destruct (differ_loop_entity _ _ _ _ import Hres Hdup Hin)
      as (emitted & Hemit & Hfor).
    rewrite Hbody in Hemit. injection Hemit as <-.
    by rewrite <- Hguid, Hfor.
Qed.

(** C1. For an entity of the updated model whose guid is absent from the
    current model, the iteration of the differ appends one operation, an ADD
    wrapping that entity without an update mask; in the returned list it is
    the only operation for that guid; and the differ returns a list when no
    entity has a variant conflict. *)
Theorem differ_adds_absent_entity current_model updated_model e :
  e ∈ entities updated_model →
  bc_guid e ∉ guids_of current_model →
  (∀ operations,
     DetermineEntityOperations_body current_model operations e
     = Return (operations ++ [mkEntityOperation e ADD None]))
  ∧ (∀ result,
       DetermineEntityOperations current_model updated_model = Return result →
       NoDup ((λ e : entity_t, bc_guid e) <$> entities updated_model) →
       operations_for (bc_guid e) result = [mkEntityOperation e ADD None])
  ∧ (Forall (λ e, variant_conflict current_model e = false)
            (entities updated_model) →
     ∃ result,
       DetermineEntityOperations current_model updated_model = Return result).
Proof.
  intros Hin Habsent. split; [|split].
  - intros operations. by apply body_absent.
  - intros result Hres Hdup.
    destruct (differ_loop_entity _ _ _ _ e Hres Hdup Hin)
      as (emitted & Hemit & ->).
    rewrite body_absent in Hemit by done. by injection Hemit as <-.
  - apply differ_returns_without_conflict.
Qed.

(** C2. For an entity of the updated model whose guid is in the current
    model at an entity of the same variant, a mask is computed; it is empty
    exactly when code and type are equal, no connection is added and no
    translation is lost (reporting) or the links are empty on a side or score
    at least 0.9 (virtual). With an empty mask the differ emits nothing for
    the entity; with a non-empty mask it emits one operation, an UPDATE
    wrapping the updated entity with that mask. *)
Theorem differ_updates_iff_mask_nonempty current_model updated_model e export_entity :
  e ∈ entities updated_model →
  GetEntity current_model (bc_guid e) = Return export_entity →
  same_variant e export_entity = true →
  ∃ mask,
    pair_update_mask export_entity e = Return mask
    ∧ (pair_unchanged export_entity e ↔ mask = [])
    ∧ (∀ operations,
         DetermineEntityOperations_body current_model operations e
         = Return (operations
                     ++ match mask with
                        | [] => []
                        | _ :: _ => [mkEntityOperation e UPDATE (Some mask)]
                        end))
    ∧ (∀ result,
         DetermineEntityOperations current_model updated_model = Return result →
         NoDup ((λ e : entity_t, bc_guid e) <$> entities updated_model) →
         operations_for (bc_guid e) result
         = match mask with
           | [] => []
           | _ :: _ => [mkEntityOperation e UPDATE (Some mask)]
           end).
Proof.
  intros Hin Hget Hsame.
  destruct (pair_update_mask_Return export_entity e Hsame) as [mask Hmask].
  exists mask. split; [done|].
  split; [symmetry; by apply pair_update_mask_nil|].
  assert (∀ operations,
            DetermineEntityOperations_body current_model operations e
            = Return (operations
                        ++ match mask with
                           | [] => []
                           | _ :: _ => [mkEntityOperation e UPDATE (Some mask)]
                           end)) as Hbody.
  { intros operations. rewrite (body_present _ _ _ export_entity) by done.
    rewrite Hmask. by destruct mask. }
  split; [done|].
  intros result Hres Hdup.
  destruct (differ_loop_entity _ _ _ _ e Hres Hdup Hin)
    as (emitted & Hemit & ->).
  rewrite Hbody in Hemit. by injection Hemit as <-.
Qed.

(** C9. When an entity of the updated model has its guid in the current
    model at an entity of the other variant, the differ raises a
    [TypeError] and returns no list. The message names the guid of the first
    such entity of the updated model, and no other guid has that message. *)
Theorem differ_raises_on_variant_conflict current_model updated_model e export_entity :
  e ∈ entities updated_model →
  GetEntity current_model (bc_guid e) = Return export_entity →
  same_variant e export_entity = false →
  ∃ before first after,
    entities updated_model = before ++ first :: after
    ∧ Forall (λ e, variant_conflict current_model e = false) before
    ∧ variant_conflict current_model first = true
    ∧ DetermineEntityOperations current_model updated_model
      = Raise (TypeError (variant_conflict_message (bc_guid first)))
    ∧ (∀ guid,
         variant_conflict_message guid
         = variant_conflict_message (bc_guid first) →
         guid = bc_guid first)
    ∧ (∀ result,
         DetermineEntityOperations current_model updated_model
         ≠ Return result)
    ∧ ((∀ e', e' ∈ entities updated_model →
              variant_conflict current_model e' = true →
              bc_guid e' = bc_guid e) →
       bc_guid first = bc_guid e).
Proof.
  intros Hin Hget Hdiff.
  assert (variant_conflict current_model e = true) as Hc.
  { unfold variant_conflict. rewrite Hget. cbn. by rewrite Hdiff. }
  destruct (differ_loop_Raise current_model _ e Hin Hc)
    as (before & first & after & Hsplit & Hall & Hfirst & Hloop).
  exists before, first, after.
  assert (DetermineEntityOperations current_model updated_model
          = Raise (TypeError (variant_conflict_message (bc_guid first))))
    as Hraise by apply Hloop.
  repeat split; try done.
  - intros guid. apply variant_conflict_message_inj.
  - intros result. by rewrite Hraise.
  - intros Honly. apply Honly; [|done].
    rewrite Hsplit. set_solver.
Qed.

(** C3. At each position of the manual list the reconciler keeps the manual
    operation when no generated operation has its guid, keeps it when its tag
    is DELETE, and otherwise emits the generated operation of that guid (the
    last one with it) in place of the manual one. *)
Theorem reconcile_precedence
    (model_operations generated_operations : list operation_t)
    i model_operation :
  model_operations !! i = Some model_operation →
  let same_guid :=
    operations_for (bc_guid (entity model_operation)) generated_operations in
  (same_guid = [] →
   ReconcileOperations model_operations generated_operations !! i
   = Some model_operation)
  ∧ (same_guid ≠ [] → operation model_operation = DELETE →
     ReconcileOperations model_operations generated_operations !! i
     = Some model_operation)
  ∧ (same_guid ≠ [] → operation model_operation ≠ DELETE →
     ∃ generated_operation,
       last same_guid = Some generated_operation
       ∧ generated_operation ∈ generated_operations
       ∧ bc_guid (entity generated_operation)
         = bc_guid (entity model_operation)
       ∧ ReconcileOperations model_operations generated_operations !! i
         = Some generated_operation).
Proof.
  intros Hi same_guid. rewrite (reconcile_lookup _ _ _ _ Hi).
  fold same_guid. split; [|split].
  - by intros ->.
  - intros _ Hdel. destruct (last same_guid); [|done]. by rewrite decide_True.
  - intros Hne Hnodel. destruct (last same_guid) as [g|] eqn:Hlast.
    + exists g. split; [done|].
      destruct (last_operations_for _ _ _ Hlast) as [Hin Hguid].
      by rewrite decide_False.
    + by apply last_None in Hlast.
Qed.

(** C4. Every operation the reconciler emits has the guid of a manual
    operation; a generated operation whose guid no manual operation has is
    not emitted. *)
Theorem reconcile_within_manual_guids
    (model_operations generated_operations : list operation_t) :
  (∀ op,
     op ∈ ReconcileOperations model_operations generated_operations →
     bc_guid (entity op)
     ∈ (λ m : operation_t, bc_guid (entity m)) <$> model_operations)
  ∧ (∀ generated_operation,
       generated_operation ∈ generated_operations →
       bc_guid (entity generated_operation)
       ∉ (λ m : operation_t, bc_guid (entity m)) <$> model_operations →
       generated_operation
       ∉ ReconcileOperations model_operations generated_operations).
Proof.
  assert (∀ op,
            op ∈ ReconcileOperations model_operations generated_operations →
            bc_guid (entity op)
            ∈ (λ m : operation_t, bc_guid (entity m)) <$> model_operations)
    as Hguid.
  { intros op Hop. apply list_elem_of_lookup in Hop as [i Hi].
    destruct (model_operations !! i) as [m|] eqn:Hm.
    - destruct (reconcile_lookup_cases _ generated_operations _ _ Hm)
        as (r & Hr & Hg & _).
      rewrite Hi in Hr. injection Hr as <-. rewrite Hg.
      apply list_elem_of_fmap. exists m. split; [done|].
      by eapply list_elem_of_lookup_2.
    - rewrite reconcile_eq, list_lookup_fmap, Hm in Hi. discriminate. }
  split; [done|].
  intros g _ Hnot Hin. by apply Hnot, Hguid.
Qed.

(** C10. The output of the reconciler is as long as the manual list, its
    i-th operation has the guid of the i-th manual operation, and every
    output operation is an operation of one of the two input lists. *)
Theorem reconcile_preserves_order
    (model_operations generated_operations : list operation_t) :
  length (ReconcileOperations model_operations generated_operations)
  = length model_operations
  ∧ (∀ i model_operation,
       model_operations !! i = Some model_operation →
       ∃ r,
         ReconcileOperations model_operations generated_operations !! i
         = Some r
         ∧ bc_guid (entity r) = bc_guid (entity model_operation)
         ∧ (r = model_operation ∨ r ∈ generated_operations))
  ∧ (∀ r,
       r ∈ ReconcileOperations model_operations generated_operations →
       r ∈ model_operations ∨ r ∈ generated_operations).
Proof.
  split; [by rewrite reconcile_eq, length_fmap|].
  split; [intros i m; apply reconcile_lookup_cases|].
  intros r Hr. apply list_elem_of_lookup in Hr as [i Hi].
  destruct (model_operations !! i) as [m|] eqn:Hm.
  - destruct (reconcile_lookup_cases _ generated_operations _ _ Hm)
      as (r' & Hr' & _ & Hcase).
    rewrite Hi in Hr'. injection Hr' as <-.
    destruct Hcase as [-> | ?]; [left | by right].
    by eapply list_elem_of_lookup_2.
  - rewrite reconcile_eq, list_lookup_fmap, Hm in Hi. discriminate.
Qed.

(** * Further properties *)

(** ** The link score *)

Lemma GetLinkScore_Return_inv (current_links updated_links : list FieldTranslation)
    link_score :
  _GetLinkScore current_links updated_links = Return link_score →
  current_links ≠ []
  ∧ link_score
    = (Z.of_nat (size ((list_to_set updated_links : gset FieldTranslation)
                         ∩ list_to_set current_links))
       # Pos.of_nat (size (list_to_set current_links
                              : gset FieldTranslation)))%Q.
Proof.
  intros Hscore. destruct current_links as [|l ls]; [discriminate|].
  split; [done|]. rewrite GetLinkScore_Return in Hscore by done.
  by injection Hscore as <-.
Qed.

Lemma Qmake_of_nat_le (a a' b : nat) :
  b ≠ 0 →
  (Z.of_nat a # Pos.of_nat b <= Z.of_nat a' # Pos.of_nat b)%Q ↔ a ≤ a'.
Proof.
  intros Hb. unfold Qle. cbn [Qnum Qden].
  assert (Z.pos (Pos.of_nat b) = Z.of_nat b) as ->.
  { destruct b as [|b]; [done|]. rewrite <- Pos.of_nat_succ. lia. }
  nia.
Qed.

Lemma Qmake_of_nat_eq (a b : nat) (k : nat) :
  b ≠ 0 →
  (Z.of_nat a # Pos.of_nat b == inject_Z (Z.of_nat k))%Q ↔ a = k * b.
Proof.
  intros Hb. unfold Qeq, inject_Z. cbn [Qnum Qden].
  assert (Z.pos (Pos.of_nat b) = Z.of_nat b) as ->.
  { destruct b as [|b]; [done|]. rewrite <- Pos.of_nat_succ. lia. }
  nia.
Qed.

(** X1. The score is 1 exactly when every current link is among the updated
    links, and 0 exactly when none is. *)
Theorem link_score_extremes (current_links updated_links : list FieldTranslation)
    link_score :
  _GetLinkScore current_links updated_links = Return link_score →
  ((link_score == 1)%Q ↔ ∀ link, link ∈ current_links → link ∈ updated_links)
  ∧ ((link_score == 0)%Q ↔ ∀ link, link ∈ current_links → link ∉ updated_links).
Proof.
  intros Hscore. apply GetLinkScore_Return_inv in Hscore as [Hne ->].
  pose proof (size_list_to_set_pos _ Hne) as Hpos.
  set (C := list_to_set current_links : gset FieldTranslation) in *.
  set (U := list_to_set updated_links : gset FieldTranslation).
  split.
  - rewrite (Qmake_of_nat_eq _ _ 1) by done. rewrite Nat.mul_1_l.
    assert (size (U ∩ C) = size C ↔ C ⊆ U) as ->.
    { split.
      - intros Hsize.
        assert (U ∩ C = C) as Heq
          by (apply set_subseteq_size_eq; [set_solver | lia]).
        set_solver.
      - intros Hsub. f_equal. set_solver. }
    subst C U. split.
    + intros Hsub x Hx. set_solver.
    + intros Hall x Hx. set_solver.
  - rewrite (Qmake_of_nat_eq _ _ 0) by done. rewrite Nat.mul_0_l.
    rewrite size_empty_iff. subst C U. split.
    + intros Hempty x Hx Hu.
      assert (x ∈ (list_to_set updated_links : gset FieldTranslation)
                    ∩ list_to_set current_links) as Hin
        by (apply elem_of_intersection; by rewrite !elem_of_list_to_set).
      rewrite Hempty in Hin. set_solver.
    + intros Hnone. apply set_equiv. intros x.
      rewrite elem_of_intersection, !elem_of_list_to_set.
      split; [|set_solver]. intros [Hu Hc]. by destruct (Hnone x Hc).
Qed.

(** X2. The score depends on the two lists only through their sets of
    links: order and repetitions do not matter, also for the division by
    zero. *)
Theorem link_score_set_insensitive
    (current_links current_links' updated_links updated_links'
       : list FieldTranslation) :
  (∀ link, link ∈ current_links ↔ link ∈ current_links') →
  (∀ link, link ∈ updated_links ↔ link ∈ updated_links') →
  _GetLinkScore current_links updated_links
  = _GetLinkScore current_links' updated_links'.
Proof.
  intros Hcurrent Hupdated.
  assert ((list_to_set current_links : gset FieldTranslation)
          = list_to_set current_links') as HC.
  { apply set_eq. intros x. by rewrite !elem_of_list_to_set. }
  assert ((list_to_set updated_links : gset FieldTranslation)
          = list_to_set updated_links') as HU.
  { apply set_eq. intros x. by rewrite !elem_of_list_to_set. }
  unfold _GetLinkScore. cbn zeta. by rewrite HC, HU.
Qed.

(** X3. Links added to the updated list never lower the score. *)
Theorem link_score_monotone
    (current_links updated_links updated_links' : list FieldTranslation)
    link_score link_score' :
  (∀ link, link ∈ updated_links → link ∈ updated_links') →
  _GetLinkScore current_links updated_links = Return link_score →
  _GetLinkScore current_links updated_links' = Return link_score' →
  (link_score <= link_score')%Q.
Proof.
  intros Hupdated Hs Hs'.
  apply GetLinkScore_Return_inv in Hs as [Hne ->].
  apply GetLinkScore_Return_inv in Hs' as [_ ->].
  apply Qmake_of_nat_le; [by apply size_list_to_set_pos|].
  apply subseteq_size. intros x.
  rewrite !elem_of_intersection, !elem_of_list_to_set. naive_solver.
Qed.

(** X4. The scorer raises exactly when the current links are empty, and
    then it is a division by zero, whatever the updated links. *)
Theorem link_score_raises_iff_empty
    (current_links updated_links : list FieldTranslation) :
  (current_links = [] ↔
   _GetLinkScore current_links updated_links = Raise ZeroDivisionError)
  ∧ (∀ err, _GetLinkScore current_links updated_links = Raise err →
            err = ZeroDivisionError ∧ current_links = []).
Proof.
  destruct current_links as [|l ls].
  - split; [done|]. intros err Herr. vm_compute in Herr.
    by injection Herr as <-.
  - rewrite GetLinkScore_Return by done. split; [|discriminate].
    split; discriminate.
Qed.

(** ** The update masks *)

Lemma elem_of_shared_mask_CODE (c u : attrs_t) :
  CODE ∈ shared_mask c u ↔ code u ≠ code c.
Proof. unfold shared_mask. repeat case_decide; set_solver. Qed.

Lemma elem_of_shared_mask_TYPE (c u : attrs_t) :
  TYPE ∈ shared_mask c u ↔ type_name u ≠ type_name c.
Proof. unfold shared_mask. repeat case_decide; set_solver. Qed.

Lemma shared_mask_sublist (c u : attrs_t) :
  shared_mask c u `sublist_of` [CODE; TYPE; CONNECTIONS].
Proof.
  unfold shared_mask.
  repeat case_decide; cbn;
    repeat first [apply sublist_nil_l | apply sublist_skip | apply sublist_cons].
Qed.

(** X5. In both calculators CODE is in the mask exactly when the codes
    differ and TYPE exactly when the type names differ. *)
Theorem code_and_type_flags :
  (∀ current_entity updated_entity : reporting_t,
     (CODE ∈ DetermineReportingEntityUpdateMask current_entity updated_entity
      ↔ code updated_entity ≠ code current_entity)
     ∧ (TYPE ∈ DetermineReportingEntityUpdateMask current_entity updated_entity
        ↔ type_name updated_entity ≠ type_name current_entity))
  ∧ (∀ current_entity updated_entity : virtual_t,
       ∃ mask,
         DetermineVirtualEntityUpdateMask current_entity updated_entity
         = Return mask
         ∧ (CODE ∈ mask ↔ code updated_entity ≠ code current_entity)
         ∧ (TYPE ∈ mask
            ↔ type_name updated_entity ≠ type_name current_entity)).
Proof.
  split.
  - intros c u. rewrite reporting_mask_eq, !elem_of_app.
    rewrite elem_of_shared_mask_CODE, elem_of_shared_mask_TYPE.
    case_decide; set_solver.
  - intros c u. destruct (virtual_mask_Return c u) as (b & -> & _).
    eexists. split; [done|]. rewrite !elem_of_app.
    rewrite elem_of_shared_mask_CODE, elem_of_shared_mask_TYPE.
    destruct b; set_solver.
Qed.

(** X6. A mask lists its tags without repetition in the order CODE, TYPE,
    CONNECTIONS and then TRANSLATION (reporting) or LINKS (virtual); a
    reporting mask never holds LINKS and a virtual mask never TRANSLATION. *)
Theorem mask_tags_in_order :
  (∀ current_entity updated_entity : reporting_t,
     DetermineReportingEntityUpdateMask current_entity updated_entity
     `sublist_of` [CODE; TYPE; CONNECTIONS; TRANSLATION])
  ∧ (∀ current_entity updated_entity : virtual_t,
       ∃ mask,
         DetermineVirtualEntityUpdateMask current_entity updated_entity
         = Return mask
         ∧ mask `sublist_of` [CODE; TYPE; CONNECTIONS; LINKS]).
Proof.
  split.
  - intros c u. rewrite reporting_mask_eq.
    change [CODE; TYPE; CONNECTIONS; TRANSLATION]
      with ([CODE; TYPE; CONNECTIONS] ++ [TRANSLATION]).
    apply sublist_app; [apply shared_mask_sublist|].
    case_decide; [done | apply sublist_nil_l].
  - intros c u. destruct (virtual_mask_Return c u) as (b & -> & _).
    eexists. split; [done|].
    change [CODE; TYPE; CONNECTIONS; LINKS]
      with ([CODE; TYPE; CONNECTIONS] ++ [LINKS]).
    apply sublist_app; [apply shared_mask_sublist|].
    destruct b; [done | apply sublist_nil_l].
Qed.

(** X7. For a pair of virtual entities LINKS is flagged exactly when both
    link lists are non-empty and fewer than nine tenths of the distinct
    current links are among the updated links; a survival of exactly nine
    tenths is not flagged. *)
Theorem links_flag_nine_tenths (current_entity updated_entity : virtual_t) :
  ∃ mask,
    DetermineVirtualEntityUpdateMask current_entity updated_entity = Return mask
    ∧ (LINKS ∈ mask ↔
         links current_entity ≠ [] ∧ links updated_entity ≠ []
         ∧ 10 * size ((list_to_set (links updated_entity)
                         : gset FieldTranslation)
                        ∩ list_to_set (links current_entity))
           < 9 * size (list_to_set (links current_entity)
                         : gset FieldTranslation)).
Proof.
  destruct (virtual_mask_Return current_entity updated_entity)
    as (b & Hmask & Hb).
  eexists. split; [exact Hmask|].
  assert (LINKS ∈ shared_mask current_entity updated_entity
                    ++ (if b then [LINKS] else []) ↔ b = true) as ->.
  { pose proof (elem_of_shared_mask_LINKS current_entity updated_entity).
    destruct b; set_solver. }
  rewrite Hb.
  destruct (decide (links current_entity = [])) as [Hc|Hc]; [naive_solver|].
  pose proof (size_list_to_set_pos _ Hc) as Hpos.
  assert ((link_overlap_ratio (links current_entity) (links updated_entity)
             < link_threshold)%Q
          ↔ 10 * size ((list_to_set (links updated_entity)
                          : gset FieldTranslation)
                         ∩ list_to_set (links current_entity))
            < 9 * size (list_to_set (links current_entity)
                          : gset FieldTranslation)) as ->; [|done].
  unfold link_overlap_ratio.
  rewrite <- size_intersection_filter, <- size_list_to_set_remove_dups.
  unfold link_threshold, Qlt. cbn [Qnum Qden].
  assert (Z.pos (Pos.of_nat (size (list_to_set (links current_entity)
                                     : gset FieldTranslation)))
          = Z.of_nat (size (list_to_set (links current_entity)
                              : gset FieldTranslation))) as ->.
  { destruct (size _) as [|n]; [done|]. rewrite <- Pos.of_nat_succ. lia. }
  lia.
Qed.

(** ** The differ *)

Lemma GetEntity_unique model e :
  NoDup ((λ e : entity_t, bc_guid e) <$> entities model) →
  e ∈ entities model →
  GetEntity model (bc_guid e) = Return e.
Proof.
  intros Hdup Hin.
  destruct (GetEntity_member model (bc_guid e)) as [e' Hget].
  { unfold guids_of. rewrite elem_of_list_to_set, list_elem_of_fmap. eauto. }
  rewrite Hget. f_equal.
  apply GetEntity_Return_inv in Hget as [Hin' Hguid].
  apply list_elem_of_lookup in Hin as [i Hi].
  apply list_elem_of_lookup in Hin' as [j Hj].
  assert (i = j) as ->; [|congruence].
  apply (NoDup_lookup _ i j (bc_guid e) Hdup);
    rewrite list_lookup_fmap; [by rewrite Hi | by rewrite Hj, <- Hguid].
Qed.

Lemma pair_update_mask_refl e : pair_update_mask e e = Return [].
Proof.
  destruct (pair_update_mask_Return e e) as [mask Hmask]; [by destruct e|].
  rewrite Hmask. f_equal. apply (pair_update_mask_nil _ _ _ Hmask).
  unfold pair_unchanged.
  split; [done|]. split; [done|]. split; [done|].
  destruct e as [v|r]; [|done].
  destruct (links v) as [|l ls] eqn:Hl; [by left|]. right. right.
  eexists. split; [by apply GetLinkScore_Return|].
  rewrite intersection_idemp_L.
  unfold link_threshold, Qle. cbn [Qnum Qden].
  pose proof (size_list_to_set_pos (l :: ls)) as Hpos.
  destruct (size _) as [|n]; [by exfalso; apply Hpos|].
  rewrite <- Pos.of_nat_succ. lia.
Qed.

(** What one iteration emits, when it returns: nothing, one ADD without a
    mask for a guid the current model has not, or one UPDATE with a
    non-empty mask for a guid it has. *)
Lemma body_emitted_shape current_model e emitted :
  DetermineEntityOperations_body current_model [] e = Return emitted →
  emitted = []
  ∨ ((bc_guid e ∉ guids_of current_model)
     ∧ emitted = [mkEntityOperation e ADD None])
  ∨ (bc_guid e ∈ guids_of current_model
     ∧ ∃ mask, mask ≠ []
               ∧ emitted = [mkEntityOperation e UPDATE (Some mask)]).
Proof.
  intros Hbody.
  destruct (decide (bc_guid e ∈ guids_of current_model)) as [Hin|Hnot].
  - destruct (GetEntity_member _ _ Hin) as [export Hget].
    rewrite (body_present _ _ _ export Hget) in Hbody.
    apply bind_Return_inv in Hbody as (mask & _ & Hret).
    injection Hret as <-.
    destruct mask as [|a mask]; [by left|].
    right. right. split; [done|]. by exists (a :: mask).
  - rewrite body_absent in Hbody by done. injection Hbody as <-.
    right. left. done.
Qed.

(** X8. Entities that the current model holds unchanged yield no operation:
    when guids are unique in the current model and every entity of the
    updated model is an entity of the current one, the differ returns the
    empty list; so does comparing a model with itself. *)
Theorem differ_of_unchanged_entities current_model updated_model :
  NoDup ((λ e : entity_t, bc_guid e) <$> entities current_model) →
  (∀ e, e ∈ entities updated_model → e ∈ entities current_model) →
  DetermineEntityOperations current_model updated_model = Return []
  ∧ DetermineEntityOperations current_model current_model = Return [].
Proof.
  intros Hdup.
  assert (∀ es : list entity_t,
            (∀ e, e ∈ es → e ∈ entities current_model) →
            for_each es [] (DetermineEntityOperations_body current_model)
            = Return []) as Hloop.
  { induction es as [|e es IH]; intros Hsub; [done|].
    cbn. rewrite (body_present _ _ _ e)
      by (apply GetEntity_unique; [done | apply Hsub; left]).
    rewrite pair_update_mask_refl. cbn.
    apply IH. intros e' He'. apply Hsub. by right. }
  intros Hsub. split; apply Hloop; auto.
Qed.

(** X9. When no guid of the updated model is in the current model, and in
    particular against an empty current model, the differ returns one ADD
    without a mask per entity, in the order of the updated model. *)
Theorem differ_of_new_entities current_model updated_model :
  (∀ e, e ∈ entities updated_model → bc_guid e ∉ guids_of current_model) →
  DetermineEntityOperations current_model updated_model
  = Return ((λ e, mkEntityOperation e ADD None) <$> entities updated_model)
  ∧ DetermineEntityOperations (mkModel []) updated_model
    = Return ((λ e, mkEntityOperation e ADD None) <$> entities updated_model).
Proof.
  assert (∀ (model : model_t) (es : list entity_t) operations,
            (∀ e, e ∈ es → bc_guid e ∉ guids_of model) →
            for_each es operations (DetermineEntityOperations_body model)
            = Return (operations
                        ++ ((λ e, mkEntityOperation e ADD None) <$> es)))
    as Hloop.
  { intros model es. induction es as [|e es IH]; intros operations Hnew.
    - cbn. by rewrite app_nil_r.
    - cbn. rewrite body_absent by (apply Hnew; left). cbn.
      rewrite IH by (intros e' He'; apply Hnew; by right).
      by rewrite <- app_assoc. }
  intros Hnew. split.
  - by apply (Hloop current_model _ []).
  - apply (Hloop (mkModel []) _ []). intros e _. unfold guids_of. cbn.
    set_solver.
Qed.

(** The operations a run of the loop appends: they wrap entities of the
    list in its order, and each is an ADD without a mask for a guid the
    current model has not or an UPDATE with a non-empty mask for a guid it
    has. *)
Lemma differ_loop_shape current_model (es : list entity_t) operations result :
  for_each es operations (DetermineEntityOperations_body current_model)
  = Return result →
  ∃ emitted,
    result = operations ++ emitted
    ∧ (entity <$> emitted) `sublist_of` es
    ∧ Forall (λ op,
                (operation op = ADD ∧ update_mask op = None
                 ∧ bc_guid (entity op) ∉ guids_of current_model)
                ∨ (operation op = UPDATE
                   ∧ bc_guid (entity op) ∈ guids_of current_model
                   ∧ ∃ mask, update_mask op = Some mask ∧ mask ≠ []))
             emitted.
Proof.
  revert operations result.
  induction es as [|e es IH]; intros operations res Hres.
  - injection Hres as <-. exists []. by rewrite app_nil_r.
  - cbn in Hres. apply bind_Return_inv in Hres as (ops' & Hbody & Hres).
    apply body_Return_inv in Hbody as (emitted & -> & Hemit & _).
    destruct (IH _ _ Hres) as (rest & -> & Hsub & Hall).
    exists (emitted ++ rest). split; [by rewrite app_assoc|].
    apply body_emitted_shape in Hemit
      as [-> | [[Hnot ->] | [Hin (mask & Hmask & ->)]]].
    + split; [by apply sublist_cons | done].
    + split; [by apply sublist_skip|].
      constructor; [|done]. left. done.
    + split; [by apply sublist_skip|].
      constructor; [|done]. right. eauto.
Qed.

(** X10. The list the differ returns follows the updated model: the
    entities it wraps are entities of the updated model in their order, at
    most one operation per entity, and each operation is an ADD without a
    mask for a guid the current model has not, or an UPDATE with a non-empty
    mask for a guid it has; no DELETE and no EXPORT is generated. *)
Theorem differ_output_shape current_model updated_model result :
  DetermineEntityOperations current_model updated_model = Return result →
  (entity <$> result) `sublist_of` entities updated_model
  ∧ length result ≤ length (entities updated_model)
  ∧ Forall (λ op,
              (operation op = ADD ∧ update_mask op = None
               ∧ bc_guid (entity op) ∉ guids_of current_model)
              ∨ (operation op = UPDATE
                 ∧ bc_guid (entity op) ∈ guids_of current_model
                 ∧ ∃ mask, update_mask op = Some mask ∧ mask ≠ []))
           result
  ∧ Forall (λ op, operation op ≠ DELETE ∧ operation op ≠ EXPORT) result.
Proof.
  intros Hres.
  destruct (differ_loop_shape _ _ _ _ Hres) as (emitted & -> & Hsub & Hall).
  cbn [app]. split; [done|]. split.
  { apply sublist_length in Hsub. by rewrite length_fmap in Hsub. }
  split; [done|].
  eapply Forall_impl; [exact Hall|]. cbn.
  intros op [(-> & _) | (-> & _)]; by split.
Qed.

(** X11. The differ returns a list exactly when no entity of the updated
    model has its guid at an entity of the other variant in the current
    model; every exception it raises is the [TypeError] of such an entity,
    never a division by zero or a failed lookup. *)
Theorem differ_returns_iff_no_conflict current_model updated_model :
  ((∃ result,
      DetermineEntityOperations current_model updated_model = Return result)
   ↔ Forall (λ e, variant_conflict current_model e = false)
            (entities updated_model))
  ∧ (∀ err,
       DetermineEntityOperations current_model updated_model = Raise err →
       ∃ e, e ∈ entities updated_model
            ∧ variant_conflict current_model e = true
            ∧ err = TypeError (variant_conflict_message (bc_guid e))).
Proof.
  assert (¬ Forall (λ e, variant_conflict current_model e = false)
                   (entities updated_model) →
          ∃ e, e ∈ entities updated_model
               ∧ variant_conflict current_model e = true
               ∧ DetermineEntityOperations current_model updated_model
                 = Raise (TypeError (variant_conflict_message (bc_guid e))))
    as Hraise.
  { intros Hnot. apply not_Forall_Exists in Hnot; [|apply _].
    apply Exists_exists in Hnot as (e & Hin & Hc).
    apply not_false_is_true in Hc.
    destruct (differ_loop_Raise current_model _ e Hin Hc)
      as (before & first & after & Hsplit & _ & Hfirst & Hloop).
    exists first. split; [rewrite Hsplit; set_solver|]. split; [done|].
    apply Hloop. }
  split.
  - split; [|apply differ_returns_without_conflict].
    intros [result Hres].
    destruct (decide (Forall (λ e, variant_conflict current_model e = false)
                             (entities updated_model))) as [|Hnot]; [done|].
    destruct (Hraise Hnot) as (e & _ & _ & Herr). rewrite Herr in Hres.
    discriminate.
  - intros err Herr.
    destruct (decide (Forall (λ e, variant_conflict current_model e = false)
                             (entities updated_model))) as [Hall|Hnot].
    + destruct (differ_returns_without_conflict _ _ Hall) as [result Hres].
      rewrite Hres in Herr. discriminate.
    + destruct (Hraise Hnot) as (e & Hin & Hc & Heq).
      exists e. split; [done|]. split; [done|].
      rewrite Heq in Herr. by injection Herr as <-.
Qed.

(** ** The reconciler *)

Lemma reconcile_fmap (model_operations generated_operations : list operation_t) :
  ReconcileOperations model_operations generated_operations
  = reconciled generated_operations <$> model_operations.
Proof. apply reconcile_eq. Qed.

Lemma operations_for_nil_iff guid (generated_operations : list operation_t) :
  operations_for guid generated_operations = []
  ↔ ∀ g, g ∈ generated_operations → bc_guid (entity g) ≠ guid.
Proof.
  unfold operations_for. split.
  - intros Hnil g Hin Hguid.
    by apply (filter_nil_not_elem_of _ _ g Hnil Hguid).
  - intros Hall. induction generated_operations as [|g gs IH]; [done|].
    rewrite filter_cons_False by (apply Hall; left).
    apply IH. intros g' Hin. apply Hall. by right.
Qed.

(** The operation at a position is the manual one, or a generated one with
    the same guid that replaces a manual operation other than a DELETE. *)
Lemma reconciled_cases (generated_operations : list operation_t) m :
  reconciled generated_operations m = m
  ∨ (reconciled generated_operations m ∈ generated_operations
     ∧ bc_guid (entity (reconciled generated_operations m))
       = bc_guid (entity m)
     ∧ operation m ≠ DELETE).
Proof.
  unfold reconciled. destruct (last _) as [g|] eqn:Hlast; [|by left].
  apply last_operations_for in Hlast as [Hin Hguid].
  case_decide; [by left | by right].
Qed.

Lemma NoDup_fmap_elem_inj {A B : Type} (f : A → B) (l : list A) x y :
  NoDup (f <$> l) → x ∈ l → y ∈ l → f x = f y → x = y.
Proof.
  intros Hdup Hx Hy Hf.
  apply list_elem_of_lookup in Hx as [i Hi].
  apply list_elem_of_lookup in Hy as [j Hj].
  assert (i = j) as ->; [|congruence].
  apply (NoDup_lookup _ i j (f x) Hdup);
    rewrite list_lookup_fmap; [by rewrite Hi | by rewrite Hj, Hf].
Qed.

(** With unique guids the generated operation of a guid is the one
    operation of the list with that guid. *)
Lemma last_operations_for_unique (generated_operations : list operation_t) g :
  NoDup ((λ op : operation_t, bc_guid (entity op)) <$> generated_operations) →
  g ∈ generated_operations →
  last (operations_for (bc_guid (entity g)) generated_operations) = Some g.
Proof.
  intros Hdup Hin.
  destruct (last _) as [x|] eqn:Hlast.
  - apply last_operations_for in Hlast as [Hx Hguid]. f_equal.
    by apply (NoDup_fmap_elem_inj _ _ _ _ Hdup Hx Hin).
  - rewrite last_None, operations_for_nil_iff in Hlast.
    by destruct (Hlast g Hin).
Qed.

(** X12. Generated operations for other guids change nothing: when no
    generated operation has the guid of a manual operation, and in
    particular with no generated operation at all, the reconciler returns
    the manual list; with no manual operation it returns the empty list. *)
Theorem reconcile_foreign_generated
    (model_operations generated_operations : list operation_t) :
  ((∀ m g, m ∈ model_operations → g ∈ generated_operations →
           bc_guid (entity g) ≠ bc_guid (entity m)) →
   ReconcileOperations model_operations generated_operations
   = model_operations)
  ∧ ReconcileOperations model_operations [] = model_operations
  ∧ ReconcileOperations [] generated_operations = [].
Proof.
  assert (∀ gs : list operation_t,
            (∀ m g, m ∈ model_operations → g ∈ gs →
                    bc_guid (entity g) ≠ bc_guid (entity m)) →
            ReconcileOperations model_operations gs = model_operations)
    as Hforeign.
  { intros gs Hne. rewrite reconcile_fmap.
    rewrite <- (list_fmap_id model_operations) at 2.
    apply list_fmap_ext. intros i m Hm.
    apply list_elem_of_lookup_2 in Hm.
    unfold reconciled.
    assert (operations_for (bc_guid (entity m)) gs = []) as ->; [|done].
    apply operations_for_nil_iff. intros g Hg. by apply Hne. }
  split; [apply Hforeign|]. split; [|done].
  apply Hforeign. intros m g _ Hg. by apply elem_of_nil in Hg.
Qed.

(** X13. The reconciler works position by position: the output for two
    manual lists put end to end is the two outputs put end to end. *)
Theorem reconcile_app
    (model_operations1 model_operations2 generated_operations
       : list operation_t) :
  ReconcileOperations (model_operations1 ++ model_operations2)
                      generated_operations
  = ReconcileOperations model_operations1 generated_operations
    ++ ReconcileOperations model_operations2 generated_operations.
Proof. by rewrite !reconcile_fmap, fmap_app. Qed.

(** X14. Reconciling is idempotent: reconciling the output against the same
    generated operations gives the output again. *)
Theorem reconcile_idempotent
    (model_operations generated_operations : list operation_t) :
  ReconcileOperations
    (ReconcileOperations model_operations generated_operations)
    generated_operations
  = ReconcileOperations model_operations generated_operations.
Proof.
  rewrite !reconcile_fmap, <- list_fmap_compose.
  apply list_fmap_ext. intros i m _. cbn.
  unfold reconciled at 2.
  destruct (last (operations_for (bc_guid (entity m)) generated_operations))
    as [g|] eqn:Hlast.
  - destruct (last_operations_for _ _ _ Hlast) as [_ Hguid].
    case_decide as Hdel.
    + unfold reconciled. rewrite Hlast. by rewrite decide_True.
    + unfold reconciled. rewrite Hguid, Hlast. by repeat case_decide.
  - unfold reconciled. by rewrite Hlast.
Qed.

(** X15. When the guids of the generated operations are unique, their order
    does not matter: a permutation of the generated list gives the same
    output. *)
Theorem reconcile_generated_order
    (model_operations generated_operations generated_operations'
       : list operation_t) :
  NoDup ((λ op : operation_t, bc_guid (entity op)) <$> generated_operations) →
  generated_operations ≡ₚ generated_operations' →
  ReconcileOperations model_operations generated_operations
  = ReconcileOperations model_operations generated_operations'.
Proof.
  intros Hdup Hperm.
  assert (NoDup ((λ op : operation_t, bc_guid (entity op))
                   <$> generated_operations')) as Hdup'
    by by rewrite <- Hperm.
  rewrite !reconcile_fmap. apply list_fmap_ext. intros i m _.
  unfold reconciled.
  assert (last (operations_for (bc_guid (entity m)) generated_operations)
          = last (operations_for (bc_guid (entity m)) generated_operations'))
    as ->; [|done].
  destruct (last (operations_for _ generated_operations)) as [g|] eqn:Hlast.
  - apply last_operations_for in Hlast as [Hin <-].
    symmetry. apply last_operations_for_unique; [done|]. by rewrite <- Hperm.
  - rewrite last_None, operations_for_nil_iff in Hlast.
    symmetry. rewrite last_None, operations_for_nil_iff.
    intros g Hg. apply Hlast. by rewrite Hperm.
Qed.

(** X16. Deletions pass through and nothing else becomes one: when no
    generated operation is a DELETE, as for the output of the differ, the
    DELETE operations of the output are the manual DELETE operations, in
    their order. *)
Theorem reconcile_keeps_deletions
    (model_operations generated_operations : list operation_t) :
  Forall (λ g, operation g ≠ DELETE) generated_operations →
  filter (λ op, operation op = DELETE)
         (ReconcileOperations model_operations generated_operations)
  = filter (λ op, operation op = DELETE) model_operations.
Proof.
  intros Hgen. rewrite reconcile_fmap.
  induction model_operations as [|m ms IH]; [done|].
  rewrite fmap_cons.
  destruct (reconciled_cases generated_operations m)
    as [-> | (Hin & _ & Hnodel)].
  - destruct (decide (operation m = DELETE)).
    + rewrite !filter_cons_True by done. by rewrite IH.
    + rewrite !filter_cons_False by done. by rewrite IH.
  - rewrite Forall_forall in Hgen.
    rewrite !filter_cons_False by auto. by rewrite IH.
Qed.

(** X17. The differ followed by the reconciler: every operation of the
    final list is a manual operation, or an ADD or UPDATE that the differ
    generated for an entity of the updated model; so a DELETE or an EXPORT in
    the final list is always a manual operation. *)
Theorem reconcile_of_differ current_model updated_model
    (model_operations generated_operations : list operation_t) r :
  DetermineEntityOperations current_model updated_model
  = Return generated_operations →
  r ∈ ReconcileOperations model_operations generated_operations →
  (r ∈ model_operations
   ∨ (r ∈ generated_operations
      ∧ entity r ∈ entities updated_model
      ∧ (operation r = ADD ∨ operation r = UPDATE)))
  ∧ (operation r = DELETE ∨ operation r = EXPORT → r ∈ model_operations).
Proof.
  intros Hgen Hr.
  destruct (differ_loop_shape _ _ _ _ Hgen) as (emitted & Heq & Hsub & Hall).
  cbn [app] in Heq. subst emitted.
  rewrite reconcile_fmap in Hr. apply list_elem_of_fmap in Hr as (m & -> & Hm).
  assert (reconciled generated_operations m ∈ model_operations
          ∨ (reconciled generated_operations m ∈ generated_operations
             ∧ entity (reconciled generated_operations m)
               ∈ entities updated_model
             ∧ (operation (reconciled generated_operations m) = ADD
                ∨ operation (reconciled generated_operations m) = UPDATE)))
    as Hcases.
  { destruct (reconciled_cases generated_operations m)
      as [-> | (Hin & _ & _)]; [by left|].
    right. split; [done|]. split.
    - apply (sublist_subseteq _ _ Hsub). apply list_elem_of_fmap. eauto.
    - rewrite Forall_forall in Hall.
      destruct (Hall _ Hin) as [(-> & _) | (-> & _)]; auto. }
  split; [done|].
  intros Htag. destruct Hcases as [|(_ & _ & Hop)]; [done|].
  destruct Htag as [Htag|Htag], Hop as [Hop|Hop]; congruence.
Qed.

End Properties.

(** * Properties of the ontology dump *)

Module ontology_dump_facts.
Import ontology_dump.

(** ** The rows *)

Lemma field_rows_app (entity_row : Row) (fields : list (string * LocalField))
    (rows : list Row) :
  foldl (λ rows '(_, field),
           let increment := increment field in
           let field_row :=
             dict_set
               (dict_set
                  (dict_set entity_row "dbo.point_type"
                            (CStr (field_name field)))
                  "dbo.point_type_increment" (CStr increment))
               "field_optional" (CBool (optional field)) in
           rows ++ [field_row])
        rows fields
  = rows
    ++ ((λ '(_, field),
           dict_set
             (dict_set
                (dict_set entity_row "dbo.point_type"
                          (CStr (field_name field)))
                "dbo.point_type_increment" (CStr (increment field)))
             "field_optional" (CBool (optional field))) <$> fields).
Proof.
  revert rows. induction fields as [|[name field] fields IH]; intros rows.
  - cbn. by rewrite app_nil_r.
  - cbn [foldl fmap list_fmap]. rewrite IH. by rewrite <- app_assoc.
Qed.

Lemma entity_rows_app namespace rows item :
  entity_rows namespace rows item = rows ++ entity_rows namespace [] item.
Proof.
  destruct item as [entity_name entity]. unfold entity_rows.
  rewrite !field_rows_app.
  destruct (truthy (local_field_names entity)); cbn [app];
    [done | by rewrite <- app_assoc].
Qed.

(** The rows of one entity type: one row with the canonical columns when it
    has no local field, and one row with the field columns per local field
    otherwise; all of them under the guid of the type. *)
Lemma entity_rows_spec namespace entity_name entity :
  (local_field_names entity = []
   ∧ ∃ r, entity_rows namespace [] (entity_name, entity) = [r]
          ∧ keys r = canonical_keys ∧ row_guid r = guid entity)
  ∨ (local_field_names entity ≠ []
     ∧ length (entity_rows namespace [] (entity_name, entity))
       = length (local_field_names entity)
     ∧ Forall (λ r, keys r = field_keys ∧ row_guid r = guid entity)
              (entity_rows namespace [] (entity_name, entity))).
Proof.
  unfold entity_rows. rewrite field_rows_app.
  destruct (local_field_names entity) as [|f fs] eqn:Hf.
  - left. split; [done|]. eexists. split; [reflexivity|]. by split.
  - right. split; [done|]. cbn [truthy app].
    split; [by rewrite length_fmap|].
    apply Forall_fmap, Forall_forall. by intros [name field] _.
Qed.

Lemma build_rows_eq (types_by_ns : TypesByNamespace) :
  build_rows types_by_ns
  = '(namespace, entities) ← types_by_ns;
    item ← entities; entity_rows namespace [] item.
Proof.
  unfold build_rows.
  assert (∀ namespace (entities : list (string * EntityType)) rows,
            foldl (entity_rows namespace) rows entities
            = rows ++ (item ← entities; entity_rows namespace [] item))
    as Hinner.
  { intros namespace entities.
    induction entities as [|item entities IH]; intros rows.
    - cbn. by rewrite app_nil_r.
    - cbn [foldl]. rewrite IH, entity_rows_app.
      by rewrite bind_cons, app_assoc. }
  assert (∀ (u : TypesByNamespace) rows,
            foldl (λ rows '(namespace, entities),
                     foldl (entity_rows namespace) rows entities) rows u
            = rows ++ ('(namespace, entities) ← u;
                       item ← entities; entity_rows namespace [] item))
    as Houter.
  { induction u as [|[namespace entities] u IH]; intros rows.
    - cbn. by rewrite app_nil_r.
    - cbn [foldl]. rewrite IH, Hinner. by rewrite bind_cons, app_assoc. }
  apply (Houter _ []).
Qed.

Lemma elem_of_build_rows (types_by_ns : TypesByNamespace) r :
  r ∈ build_rows types_by_ns
  ↔ ∃ namespace entities entity_name entity,
      (namespace, entities) ∈ types_by_ns
      ∧ (entity_name, entity) ∈ entities
      ∧ r ∈ entity_rows namespace [] (entity_name, entity).
Proof.
  rewrite build_rows_eq, list_elem_of_bind. split.
  - intros ([namespace entities] & Hr & Hns).
    apply list_elem_of_bind in Hr as ([entity_name entity] & Hr & He).
    eauto 10.
  - intros (namespace & entities & entity_name & entity & Hns & He & Hr).
    exists (namespace, entities). split; [|done].
    apply list_elem_of_bind. eauto.
Qed.

Lemma elem_of_types_of (types_by_ns : TypesByNamespace) entity :
  entity ∈ types_of types_by_ns
  ↔ ∃ namespace entities entity_name,
      (namespace, entities) ∈ types_by_ns
      ∧ (entity_name, entity) ∈ entities.
Proof.
  unfold types_of. rewrite list_elem_of_bind. split.
  - intros ([namespace entities] & He & Hns).
    apply list_elem_of_fmap in He as ([entity_name e] & -> & He). eauto 10.
  - intros (namespace & entities & entity_name & Hns & He).
    exists (namespace, entities). split; [|done].
    apply list_elem_of_fmap. by exists (entity_name, entity).
Qed.

(** Every row is a row of a type of the universe, with its guid and the
    columns of its kind. *)
Lemma build_rows_row (types_by_ns : TypesByNamespace) r :
  r ∈ build_rows types_by_ns →
  ∃ entity,
    entity ∈ types_of types_by_ns ∧ row_guid r = guid entity
    ∧ ((local_field_names entity = [] ∧ keys r = canonical_keys)
       ∨ (local_field_names entity ≠ [] ∧ keys r = field_keys)).
Proof.
  rewrite elem_of_build_rows.
  intros (namespace & entities & entity_name & entity & Hns & He & Hr).
  exists entity. split; [apply elem_of_types_of; eauto|].
  destruct (entity_rows_spec namespace entity_name entity)
    as [(Hnil & r' & Hrows & Hkeys & Hguid) | (Hne & _ & Hall)].
  - rewrite Hrows in Hr. apply list_elem_of_singleton in Hr as ->. auto.
  - rewrite Forall_forall in Hall. destruct (Hall r Hr). auto.
Qed.

(** Every type of the universe has a row. *)
Lemma build_rows_type (types_by_ns : TypesByNamespace) entity :
  entity ∈ types_of types_by_ns →
  ∃ r, r ∈ build_rows types_by_ns ∧ row_guid r = guid entity
       ∧ ((local_field_names entity = [] ∧ keys r = canonical_keys)
          ∨ (local_field_names entity ≠ [] ∧ keys r = field_keys)).
Proof.
  rewrite elem_of_types_of. intros (namespace & entities & entity_name & Hns & He).
  destruct (entity_rows_spec namespace entity_name entity)
    as [(Hnil & r & Hrows & Hkeys & Hguid) | (Hne & Hlen & Hall)].
  - exists r. split; [|auto].
    apply elem_of_build_rows. exists namespace, entities, entity_name, entity.
    rewrite Hrows. split; [done|]. split; [done|]. by left.
  - destruct (entity_rows namespace [] (entity_name, entity)) as [|r rs] eqn:Hrows.
    { destruct (local_field_names entity); [done | discriminate]. }
    apply Forall_cons in Hall as [[Hkeys Hguid] _].
    exists r. split; [|auto].
    apply elem_of_build_rows. exists namespace, entities, entity_name, entity.
    rewrite Hrows. split; [done|]. split; [done|]. by left.
Qed.

(** ** The sort *)

Lemma ltb_false_le (s1 s2 : string) :
  String.ltb s2 s1 = false ↔ String.le s1 s2.
Proof.
  unfold String.le, String.leb, String.ltb.
  rewrite (String.compare_antisym s2 s1).
  destruct (String.compare s1 s2); cbn; naive_solver.
Qed.

Lemma ltb_true_le (s1 s2 : string) :
  String.ltb s1 s2 = true → String.le s1 s2.
Proof.
  unfold String.le, String.leb, String.ltb.
  destruct (String.compare s1 s2); cbn; naive_solver.
Qed.

Lemma ltb_irrefl_le (s1 s2 : string) :
  String.ltb s1 s2 = true → String.le s2 s1 → False.
Proof.
  intros Hlt Hle. apply ltb_false_le in Hle. congruence.
Qed.

Lemma insert_row_Permutation r rows : insert_row r rows ≡ₚ r :: rows.
Proof.
  induction rows as [|r' rows IH]; [done|]. cbn.
  destruct (String.ltb _ _); [|done]. rewrite IH. apply Permutation_swap.
Qed.

Lemma sort_rows_Permutation rows : sort_rows rows ≡ₚ rows.
Proof.
  induction rows as [|r rows IH]; [done|]. cbn.
  by rewrite insert_row_Permutation, IH.
Qed.

(** The first row of the sorted list has the least guid. *)
Lemma insert_row_least r rows :
  StronglySorted (λ r1 r2, String.le (row_guid r1) (row_guid r2)) rows →
  StronglySorted (λ r1 r2, String.le (row_guid r1) (row_guid r2))
                 (insert_row r rows).
Proof.
  induction 1 as [|r' rows Hsorted IH Hall]; cbn.
  - by repeat constructor.
  - destruct (String.ltb (row_guid r') (row_guid r)) eqn:Hlt.
    + constructor; [done|].
      rewrite insert_row_Permutation. constructor; [|done].
      by apply ltb_true_le.
    + apply ltb_false_le in Hlt. constructor; [by constructor|].
      constructor; [done|].
      eapply Forall_impl; [exact Hall|]. cbn. intros r'' Hle. by etrans.
Qed.

Lemma sort_rows_sorted rows :
  StronglySorted (λ r1 r2, String.le (row_guid r1) (row_guid r2))
                 (sort_rows rows).
Proof.
  induction rows as [|r rows IH]; [constructor|].
  cbn. by apply insert_row_least.
Qed.

Lemma sort_rows_head rows r0 rest :
  sort_rows rows = r0 :: rest →
  r0 ∈ rows ∧ ∀ r, r ∈ rows → String.le (row_guid r0) (row_guid r).
Proof.
  intros Hsort. pose proof (sort_rows_sorted rows) as Hsorted.
  pose proof (sort_rows_Permutation rows) as Hperm.
  rewrite Hsort in Hsorted, Hperm.
  split; [rewrite <- Hperm; by left|].
  intros r Hr. rewrite <- Hperm in Hr.
  apply StronglySorted_inv in Hsorted as [_ Hall].
  apply elem_of_cons in Hr as [->|Hr]; [done|].
  rewrite Forall_forall in Hall. auto.
Qed.

(** ** The writer *)

Lemma dict_to_list_accepts (fieldnames : list string) (r : Row) :
  filter (λ key, key ∉ fieldnames) (keys r) = [] →
  dict_to_list fieldnames r = inr (to_line fieldnames r).
Proof. unfold dict_to_list. by intros ->. Qed.

Lemma dict_to_list_refuses (fieldnames : list string) (r : Row) :
  filter (λ key, key ∉ fieldnames) (keys r) ≠ [] →
  dict_to_list fieldnames r
  = inl (ValueError (filter (λ key, key ∉ fieldnames) (keys r))).
Proof.
  unfold dict_to_list. by destruct (filter _ _).
Qed.

Lemma writerows_accepts (fieldnames : list string) rows lines :
  Forall (λ r, filter (λ key, key ∉ fieldnames) (keys r) = []) rows →
  writerows fieldnames rows lines
  = mkOutcome (Some (lines ++ (to_line fieldnames <$> rows))) None.
Proof.
  intros Hall. revert lines.
  induction Hall as [|r rows Hr _ IH]; intros lines; cbn.
  - by rewrite app_nil_r.
  - rewrite dict_to_list_accepts by done. rewrite IH.
    by rewrite <- app_assoc.
Qed.

Lemma writerows_refuses (fieldnames : list string) good bad rest lines :
  Forall (λ r, filter (λ key, key ∉ fieldnames) (keys r) = []) good →
  filter (λ key, key ∉ fieldnames) (keys bad) ≠ [] →
  writerows fieldnames (good ++ bad :: rest) lines
  = mkOutcome (Some (lines ++ (to_line fieldnames <$> good)))
              (Some (ValueError
                       (filter (λ key, key ∉ fieldnames) (keys bad)))).
Proof.
  intros Hall Hbad. revert lines.
  induction Hall as [|r rows Hr _ IH]; intros lines; cbn.
  - rewrite dict_to_list_refuses by done. by rewrite app_nil_r.
  - rewrite dict_to_list_accepts by done. rewrite IH.
    by rewrite <- app_assoc.
Qed.

(** A list of rows of the two kinds holds canonical rows only, or has a
    first field row. *)
Lemma first_field_row (rows : list Row) :
  Forall (λ r, keys r = canonical_keys ∨ keys r = field_keys) rows →
  Forall (λ r, keys r = canonical_keys) rows
  ∨ ∃ good bad rest,
      rows = good ++ bad :: rest
      ∧ Forall (λ r, keys r = canonical_keys) good
      ∧ keys bad = field_keys.
Proof.
  induction 1 as [|r rows [Hr|Hr] _ IH].
  - by left.
  - destruct IH as [Hall | (good & bad & rest & -> & Hgood & Hbad)].
    + left. by constructor.
    + right. exists (r :: good), bad, rest. split; [done|].
      split; [by constructor | done].
  - right. by exists [], r, rows.
Qed.

Lemma field_keys_accept_field (r : Row) :
  keys r = field_keys → filter (λ key, key ∉ field_keys) (keys r) = [].
Proof. by intros ->. Qed.

Lemma field_keys_accept_canonical (r : Row) :
  keys r = canonical_keys → filter (λ key, key ∉ field_keys) (keys r) = [].
Proof. by intros ->. Qed.

Lemma canonical_keys_accept_canonical (r : Row) :
  keys r = canonical_keys →
  filter (λ key, key ∉ canonical_keys) (keys r) = [].
Proof. by intros ->. Qed.

Lemma canonical_keys_refuse_field (r : Row) :
  keys r = field_keys →
  filter (λ key, key ∉ canonical_keys) (keys r)
  = ["dbo.point_type_increment"].
Proof. by intros ->. Qed.

(** ** The script *)

Lemma build_rows_kinds (types_by_ns : TypesByNamespace) :
  Forall (λ r, keys r = canonical_keys ∨ keys r = field_keys)
         (build_rows types_by_ns).
Proof.
  apply Forall_forall. intros r Hr.
  destruct (build_rows_row _ _ Hr) as (e & _ & _ & [[_ ?]|[_ ?]]); auto.
Qed.

Lemma build_rows_nil_iff (types_by_ns : TypesByNamespace) :
  build_rows types_by_ns = [] ↔ types_of types_by_ns = [].
Proof.
  split; intros Hnil.
  - destruct (types_of types_by_ns) as [|e es] eqn:Htypes; [done|].
    destruct (build_rows_type types_by_ns e) as (r & Hr & _).
    { rewrite Htypes. by left. }
    rewrite Hnil in Hr. by apply elem_of_nil in Hr.
  - destruct (build_rows types_by_ns) as [|r rs] eqn:Hrows; [done|].
    destruct (build_rows_row types_by_ns r) as (e & He & _).
    { rewrite Hrows. by left. }
    rewrite Hnil in He. by apply elem_of_nil in He.
Qed.

(** With at least one row the script sorts and writes. *)
Lemma main_writes (types_by_ns : TypesByNamespace) :
  build_rows types_by_ns ≠ [] →
  ∃ r0 rest,
    sort_rows (build_rows types_by_ns) = r0 :: rest
    ∧ main types_by_ns
      = writerows (keys r0) (r0 :: rest) [CStr <$> keys r0].
Proof.
  intros Hne. unfold main.
  destruct (build_rows types_by_ns) as [|r rs] eqn:Hrows; [done|].
  cbn [truthy].
  destruct (sort_rows (r :: rs)) as [|r0 rest] eqn:Hsort.
  - pose proof (sort_rows_Permutation (r :: rs)) as Hperm.
    rewrite Hsort in Hperm. by apply Permutation_nil_cons in Hperm.
  - by exists r0, rest.
Qed.

Lemma writerows_file (fieldnames : list string) rows lines :
  ∃ lines',
    flat_ontology_csv (writerows fieldnames rows lines) = Some lines'
    ∧ ∀ name, raised (writerows fieldnames rows lines)
              ≠ Some (NameError name).
Proof.
  revert lines. induction rows as [|r rows IH]; intros lines; cbn.
  - by eexists.
  - destruct (dict_to_list fieldnames r) as [e|line] eqn:Hline; [|apply IH].
    eexists. split; [done|]. intros name. cbn.
    unfold dict_to_list in Hline. destruct (truthy _); by simplify_eq.
Qed.

(** The kind of the first row after the sort: it is a field row when a type
    with local fields has a guid below that of every type without, and a
    canonical row when a type without local fields has a guid below that of
    every type with. *)
Lemma first_row_field (types_by_ns : TypesByNamespace) entity r0 rest :
  entity ∈ types_of types_by_ns →
  local_field_names entity ≠ [] →
  (∀ e, e ∈ types_of types_by_ns → local_field_names e = [] →
        String.ltb (guid entity) (guid e) = true) →
  sort_rows (build_rows types_by_ns) = r0 :: rest →
  keys r0 = field_keys.
Proof.
  intros Hin Hfields Hless Hsort.
  apply sort_rows_head in Hsort as [Hr0 Hmin].
  destruct (build_rows_row _ _ Hr0) as (e & He & Hguid & [[Hnil _]|[_ ?]]);
    [|done].
  destruct (build_rows_type _ _ Hin) as (r & Hr & Hg & _).
  exfalso. apply (ltb_irrefl_le _ _ (Hless e He Hnil)).
  rewrite <- Hguid, <- Hg. by apply Hmin.
Qed.

Lemma first_row_canonical (types_by_ns : TypesByNamespace) entity r0 rest :
  entity ∈ types_of types_by_ns →
  local_field_names entity = [] →
  (∀ e, e ∈ types_of types_by_ns → local_field_names e ≠ [] →
        String.ltb (guid entity) (guid e) = true) →
  sort_rows (build_rows types_by_ns) = r0 :: rest →
  keys r0 = canonical_keys.
Proof.
  intros Hin Hfields Hless Hsort.
  apply sort_rows_head in Hsort as [Hr0 Hmin].
  destruct (build_rows_row _ _ Hr0) as (e & He & Hguid & [[_ ?]|[Hne _]]);
    [done|].
  destruct (build_rows_type _ _ Hin) as (r & Hr & Hg & _).
  exfalso. apply (ltb_irrefl_le _ _ (Hless e He Hne)).
  rewrite <- Hguid, <- Hg. by apply Hmin.
Qed.

Lemma entity_rows_length namespace entity_name entity :
  length (entity_rows namespace [] (entity_name, entity))
  = Nat.max 1 (length (local_field_names entity)).
Proof.
  destruct (entity_rows_spec namespace entity_name entity)
    as [(-> & r & -> & _) | (Hne & -> & _)]; [done|].
  destruct (local_field_names entity); [done | cbn; lia].
Qed.

(** X18. Every entity type gives at least one row: a type without local
    fields gives one row and a type with local fields one row per field, so
    the number of rows is the sum of these numbers over the types. *)
Theorem dump_row_count (types_by_ns : TypesByNamespace) :
  length (build_rows types_by_ns)
  = sum_list_with (λ e, Nat.max 1 (length (local_field_names e)))
                  (types_of types_by_ns)
  ∧ length (types_of types_by_ns) ≤ length (build_rows types_by_ns).
Proof.
  assert (length (build_rows types_by_ns)
          = sum_list_with (λ e, Nat.max 1 (length (local_field_names e)))
                          (types_of types_by_ns)) as Hcount.
  { rewrite build_rows_eq. unfold types_of.
    induction types_by_ns as [|[namespace entities] u IH]; [done|].
    rewrite !bind_cons, length_app, sum_list_with_app, IH. f_equal.
    clear IH. induction entities as [|[entity_name entity] entities IH];
      [done|].
    rewrite bind_cons, length_app, entity_rows_length, IH. done. }
  split; [done|]. rewrite Hcount. clear Hcount.
  induction (types_of types_by_ns) as [|e es IH]; [done|].
  cbn [sum_list_with length]. lia.
Qed.

(** X19. The script writes the file exactly when the universe has an entity
    type. With no type at all it opens no file and ends in the [NameError] of
    the name [sys], which the script uses without importing it. *)
Theorem dump_NameError_iff_no_type (types_by_ns : TypesByNamespace) :
  (types_of types_by_ns = []
   ↔ main types_by_ns = mkOutcome None (Some (NameError "sys")))
  ∧ (types_of types_by_ns ≠ []
     ↔ ∃ lines, flat_ontology_csv (main types_by_ns) = Some lines)
  ∧ (∀ name, raised (main types_by_ns) = Some (NameError name) →
             types_of types_by_ns = []).
Proof.
  destruct (decide (build_rows types_by_ns = [])) as [Hnil|Hne].
  - assert (main types_by_ns = mkOutcome None (Some (NameError "sys")))
      as Hmain by (unfold main; by rewrite Hnil).
    apply build_rows_nil_iff in Hnil. rewrite Hmain, Hnil.
    split; [done|]. split; [|done].
    split; [done|]. by intros [lines ?].
  - destruct (main_writes _ Hne) as (r0 & rest & _ & ->).
    destruct (writerows_file (keys r0) (r0 :: rest) [CStr <$> keys r0])
      as (lines & Hfile & Hname).
    rewrite build_rows_nil_iff in Hne.
    split; [|split].
    + split; [done|]. intros Hout. rewrite Hout in Hfile. discriminate.
    + split; [eauto | done].
    + intros name Hraised. by destruct (Hname name).
Qed.

(** X20. When a type with local fields has a guid below that of every type
    without local fields (so also when every type has local fields), the
    script raises nothing: the file holds the header of the ten field
    columns and one line of ten cells per row. *)
Theorem dump_fields_first (types_by_ns : TypesByNamespace) entity :
  entity ∈ types_of types_by_ns →
  local_field_names entity ≠ [] →
  (∀ e, e ∈ types_of types_by_ns → local_field_names e = [] →
        String.ltb (guid entity) (guid e) = true) →
  ∃ lines,
    main types_by_ns
    = mkOutcome (Some ((CStr <$> field_keys) :: lines)) None
    ∧ length lines = length (build_rows types_by_ns)
    ∧ Forall (λ line, length line = 10) lines.
Proof.
  intros Hin Hfields Hless.
  destruct (main_writes types_by_ns) as (r0 & rest & Hsort & ->).
  { rewrite build_rows_nil_iff. intros Hnil. rewrite Hnil in Hin.
    by apply elem_of_nil in Hin. }
  rewrite (first_row_field _ _ _ _ Hin Hfields Hless Hsort).
  rewrite writerows_accepts.
  - exists (to_line field_keys <$> r0 :: rest). split; [done|].
    split.
    + rewrite length_fmap, <- Hsort.
      apply Permutation_length, sort_rows_Permutation.
    + apply Forall_fmap, Forall_forall. by intros r _.
  - rewrite <- Hsort, sort_rows_Permutation.
    eapply Forall_impl; [apply build_rows_kinds|]. cbn.
    intros r [?|?];
      [by apply field_keys_accept_canonical | by apply field_keys_accept_field].
Qed.

(** X21. When a type without local fields has a guid below that of every
    type with local fields, the header has the nine canonical columns. If no
    type has a local field the script raises nothing and writes one line per
    row. If some type has one, the writer refuses the first field row: the
    script ends in a [ValueError] for the column [dbo.point_type_increment],
    and the file is left with the header and fewer lines than rows. *)
Theorem dump_canonical_first (types_by_ns : TypesByNamespace) entity :
  entity ∈ types_of types_by_ns →
  local_field_names entity = [] →
  (∀ e, e ∈ types_of types_by_ns → local_field_names e ≠ [] →
        String.ltb (guid entity) (guid e) = true) →
  ∃ lines,
    flat_ontology_csv (main types_by_ns)
    = Some ((CStr <$> canonical_keys) :: lines)
    ∧ Forall (λ line, length line = 9) lines
    ∧ ((∀ e, e ∈ types_of types_by_ns → local_field_names e = []) →
       raised (main types_by_ns) = None
       ∧ length lines = length (build_rows types_by_ns))
    ∧ ((∃ e, e ∈ types_of types_by_ns ∧ local_field_names e ≠ []) →
       raised (main types_by_ns)
       = Some (ValueError ["dbo.point_type_increment"])
       ∧ length lines < length (build_rows types_by_ns)).
Proof.
  intros Hin Hfields Hless.
  destruct (main_writes types_by_ns) as (r0 & rest & Hsort & ->).
  { rewrite build_rows_nil_iff. intros Hnil. rewrite Hnil in Hin.
    by apply elem_of_nil in Hin. }
  rewrite (first_row_canonical _ _ _ _ Hin Hfields Hless Hsort).
  assert (Forall (λ r, keys r = canonical_keys ∨ keys r = field_keys)
                 (r0 :: rest)) as Hkinds.
  { rewrite <- Hsort, sort_rows_Permutation. apply build_rows_kinds. }
  assert (length (r0 :: rest) = length (build_rows types_by_ns)) as Hlen.
  { rewrite <- Hsort. apply Permutation_length, sort_rows_Permutation. }
  assert (∀ rows : list Row,
            Forall (λ line, length line = 9)
                   (to_line canonical_keys <$> rows)) as Hnine.
  { intros rows. apply Forall_fmap, Forall_forall. by intros r _. }
  destruct (first_field_row _ Hkinds)
    as [Hall | (good & bad & rest' & Hsplit & Hgood & Hbad)].
  - rewrite writerows_accepts
      by (eapply Forall_impl; [exact Hall|]; cbn;
          intros r ?; by apply canonical_keys_accept_canonical).
    eexists. split; [reflexivity|]. split; [apply Hnine|]. split.
    + intros _. split; [done|]. by rewrite length_fmap.
    + intros (e & He & Hne). exfalso.
      destruct (build_rows_type _ _ He) as (r & Hr & _ & [[? _]|[_ Hk]]);
        [done|].
      rewrite <- (sort_rows_Permutation (build_rows types_by_ns)), Hsort in Hr.
      rewrite Forall_forall in Hall. specialize (Hall r Hr).
      rewrite Hk in Hall. discriminate.
  - rewrite Hsplit in Hlen |- *.
    rewrite writerows_refuses
      by (first [ eapply Forall_impl; [exact Hgood|]; cbn;
                  intros r ?; by apply canonical_keys_accept_canonical
                | by rewrite canonical_keys_refuse_field ]).
    rewrite canonical_keys_refuse_field by done.
    eexists. split; [reflexivity|]. split; [apply Hnine|]. split.
    + intros Hnone. exfalso.
      assert (bad ∈ build_rows types_by_ns) as Hr.
      { rewrite <- (sort_rows_Permutation (build_rows types_by_ns)), Hsort,
          Hsplit. set_solver. }
      destruct (build_rows_row _ _ Hr) as (e & He & _ & [[_ Hk]|[Hne _]]).
      * rewrite Hbad in Hk. discriminate.
      * by apply Hne, Hnone.
    + intros _. split; [done|].
      rewrite length_fmap, <- Hlen, length_app. cbn. lia.
Qed.

End ontology_dump_facts.

(** * The program on the sample data *)

Example sample_link_score :
  _GetLinkScore [1; 2; 3] [1; 2; 4] = Return (2 # 3)%Q.
Proof. vm_compute. reflexivity. Qed.

Example sample_link_score_empty :
  _GetLinkScore ([] : list nat) [1; 2; 4] = Raise ZeroDivisionError.
Proof. vm_compute. reflexivity. Qed.

Example sample_link_score_double :
  _GetLinkScore_double [1; 2; 3] [1; 2; 4]
  = Return (6004799503160661 # 9007199254740992)%Q.
Proof. vm_compute. reflexivity. Qed.

Example sample_link_score_double_empty :
  _GetLinkScore_double ([] : list nat) [1; 2; 4] = Raise ZeroDivisionError.
Proof. vm_compute. reflexivity. Qed.

(** The double of 0.9 is above 9/10, by 1 / (5 * 2^53). *)
Example sample_threshold_double :
  nearest_double 9 10 = (8106479329266893 # 9007199254740992)%Q
  ∧ machine_div 9 10 = nearest_double 9 10
  ∧ (nearest_double 9 10 - (9 # 10) == 1 # 45035996273704960)%Q.
Proof. split; [by vm_compute|]. split; by vm_compute. Qed.

(** [nearest_double] is the division of the floating-point unit on every
    quotient of two lengths up to 64, and on lengths near 2^53. *)
Example nearest_double_is_machine_div :
  forallb (λ '(a, b), Qeq_bool (machine_div a b) (nearest_double a b))
    (quotients_upto 64
     ++ [ (1, 9007199254740991); (9007199254740990, 9007199254740991);
          (4503599627370497, 9007199254740991);
          (6004799503160661, 9007199254740992);
          (123456789012345, 987654321098765) ]%Z)
  = true.
Proof. vm_compute. reflexivity. Qed.

Example sample_differ :
  DetermineEntityOperations sample_current_model sample_updated_model
  = Return sample_generated_operations.
Proof. vm_compute. reflexivity. Qed.

Example sample_differ_conflict :
  DetermineEntityOperations sample_current_model sample_conflict_model
  = Raise (TypeError
             "GUID: G2 Maps to both a reporting entity and a virtual entity.").
Proof. vm_compute. reflexivity. Qed.

Example sample_reconcile :
  ReconcileOperations sample_model_operations sample_generated_operations
  = [ mkEntityOperation vav_renamed UPDATE (Some [CODE; TRANSLATION]);
      mkEntityOperation zone_current DELETE None;
      mkEntityOperation floor_current UPDATE (Some [CODE]) ].
Proof. vm_compute. reflexivity. Qed.

(** * The claims on the sample data *)

(** [fan_new] is absent from the current sample model: one ADD for its guid. *)
Lemma differ_adds_absent_entity_witness :
  ∃ result,
    DetermineEntityOperations sample_current_model sample_updated_model
    = Return result
    ∧ operations_for "G4" result = [mkEntityOperation fan_new ADD None].
Proof.
  eexists. split; [vm_compute; reflexivity|].
  destruct (differ_adds_absent_entity sample_current_model
              sample_updated_model fan_new)
    as (_ & Hresult & _).
  - apply list_elem_of_here.
  - vm_compute. discriminate.
  - apply Hresult.
    + vm_compute. reflexivity.
    + apply (bool_decide_unpack _). vm_compute. exact I.
Defined.

(** [vav_renamed] changes the code and loses a translation: one UPDATE with
    that mask; [vav_updated] only removes a connection and adds a translation:
    nothing is emitted. *)
Lemma differ_updates_iff_mask_nonempty_witness :
  ∃ result,
    DetermineEntityOperations sample_current_model sample_updated_model
    = Return result
    ∧ operations_for "G1" result
      = [mkEntityOperation vav_renamed UPDATE (Some [CODE; TRANSLATION])]
    ∧ DetermineEntityOperations_body sample_current_model [] vav_updated
      = Return [].
Proof.
  eexists. split; [vm_compute; reflexivity|]. split.
  - destruct (differ_updates_iff_mask_nonempty
                sample_current_model sample_updated_model
                vav_renamed vav_current)
      as (mask & Hmask & _ & _ & Hresult).
    + apply list_elem_of_further, list_elem_of_here.
    + vm_compute. reflexivity.
    + reflexivity.
    + vm_compute in Hmask. injection Hmask as <-.
      apply Hresult.
      * vm_compute. reflexivity.
      * apply (bool_decide_unpack _). vm_compute. exact I.
  - destruct (differ_updates_iff_mask_nonempty
                sample_current_model (mkModel [vav_updated])
                vav_updated vav_current)
      as (mask & Hmask & Hnil & Hbody & _).
    + apply list_elem_of_here.
    + vm_compute. reflexivity.
    + reflexivity.
    + rewrite Hbody, (proj1 Hnil); [reflexivity|].
      repeat split; cbn; set_solver.
Defined.

(** The three rules on the sample lists: a generated UPDATE replaces a manual
    EXPORT, a manual DELETE stays, and a manual operation without a generated
    one stays. *)
Lemma reconcile_precedence_witness :
  ReconcileOperations sample_model_operations sample_generated_operations !! 0
  = Some (mkEntityOperation vav_renamed UPDATE (Some [CODE; TRANSLATION]))
  ∧ ReconcileOperations sample_model_operations sample_generated_operations !! 1
    = Some (mkEntityOperation zone_current DELETE None)
  ∧ ReconcileOperations sample_model_operations sample_generated_operations !! 2
    = Some (mkEntityOperation floor_current UPDATE (Some [CODE])).
Proof.
  split; [|split].
  - destruct (reconcile_precedence
                sample_model_operations sample_generated_operations 0
                (mkEntityOperation vav_current EXPORT None) eq_refl)
      as (_ & _ & Hgenerated).
    destruct Hgenerated as (g & Hlast & _ & _ & ->);
      [vm_compute; discriminate | discriminate |].
    vm_compute in Hlast. by injection Hlast as <-.
  - destruct (reconcile_precedence
                sample_model_operations sample_generated_operations 1
                (mkEntityOperation zone_current DELETE None) eq_refl)
      as (_ & Hdelete & _).
    apply Hdelete; [vm_compute; discriminate | reflexivity].
  - destruct (reconcile_precedence
                sample_model_operations sample_generated_operations 2
                (mkEntityOperation floor_current UPDATE (Some [CODE])) eq_refl)
      as (Hnone & _ & _).
    apply Hnone. vm_compute. reflexivity.
Defined.

(** Three current links of which two survive. *)
Lemma link_score_nearest_double_witness :
  ∃ link_score,
    _GetLinkScore_double [1; 2; 3] [1; 2; 4] = Return link_score
    ∧ link_score = (6004799503160661 # 9007199254740992)%Q
    ∧ (0 <= link_score <= 1)%Q.
Proof.
  destruct (link_score_nearest_double [1; 2; 3] [1; 2; 4])
    as (link_score & Hscore & _ & _ & _ & Hbounds & _ & _ & Hexample);
    [discriminate|].
  exists link_score. split; [done|]. split; [|done].
  apply (Hexample 1 2 3 4); [|reflexivity..].
  apply (bool_decide_unpack _). vm_compute. exact I.
Defined.

(** On three current links of which two survive, the quotient of the sizes is
    2/3 and the score is the double below it: the score is not the quotient.
    The floating-point unit divides 2 by 3 to the same double. *)
Lemma link_score_differs_from_quotient :
  size ((list_to_set [1; 2; 4] : gset nat) ∩ list_to_set [1; 2; 3]) = 2
  ∧ size (list_to_set [1; 2; 3] : gset nat) = 3
  ∧ _GetLinkScore_double [1; 2; 3] [1; 2; 4]
    = Return (6004799503160661 # 9007199254740992)%Q
  ∧ machine_div 2 3 = (6004799503160661 # 9007199254740992)%Q
  ∧ ((6004799503160661 # 9007199254740992) < 2 # 3)%Q
  ∧ ¬ ((6004799503160661 # 9007199254740992) == 2 # 3)%Q
  ∧ ¬ ∃ link_score,
        _GetLinkScore_double [1; 2; 3] [1; 2; 4] = Return link_score
        ∧ (link_score == inject_Z 2 / inject_Z 3)%Q.
Proof.
  split; [by vm_compute|]. split; [by vm_compute|].
  split; [by vm_compute|]. split; [by vm_compute|].
  split; [by vm_compute|]. split; [by vm_compute|].
  intros (link_score & Hscore & Heq).
  assert (link_score = (6004799503160661 # 9007199254740992)%Q) as ->.
  { vm_compute in Hscore. by injection Hscore as <-. }
  by vm_compute in Heq.
Qed.

(** [G2] is virtual in the current sample model and reporting in the updated
    one. *)
Lemma differ_raises_on_variant_conflict_witness :
  DetermineEntityOperations sample_current_model sample_conflict_model
  = Raise (TypeError (variant_conflict_message "G2")).
Proof.
  destruct (differ_raises_on_variant_conflict
              sample_current_model sample_conflict_model
              zone_as_reporting zone_current)
    as (before & first & after & _ & _ & _ & -> & _ & _ & Honly).
  - apply list_elem_of_further, list_elem_of_here.
  - vm_compute. reflexivity.
  - reflexivity.
  - rewrite Honly; [reflexivity|].
    intros e' Hin Hconflict.
    repeat (apply elem_of_cons in Hin as [->|Hin]);
      [discriminate | reflexivity | discriminate | by apply elem_of_nil in Hin].
Defined.

(** [G1] and [G2] both change variant between the current sample model and
    [sample_two_conflicts_model]. [G2] is a shared guid whose two entities
    are not of the same variant, and the message of the error names [G1],
    the guid met first, and not [G2]. *)
Lemma differ_names_first_conflict_only :
  zone_as_reporting ∈ entities sample_two_conflicts_model
  ∧ GetEntity sample_current_model (bc_guid zone_as_reporting)
    = Return zone_current
  ∧ same_variant zone_as_reporting zone_current = false
  ∧ bc_guid zone_as_reporting = "G2"
  ∧ DetermineEntityOperations sample_current_model sample_two_conflicts_model
    = Raise (TypeError (variant_conflict_message "G1"))
  ∧ DetermineEntityOperations sample_current_model sample_two_conflicts_model
    ≠ Raise (TypeError (variant_conflict_message
                          (bc_guid zone_as_reporting))).
Proof.
  split; [apply list_elem_of_further, list_elem_of_here|].
  split; [by vm_compute|]. split; [done|]. split; [done|].
  split; [by vm_compute|].
  vm_compute. discriminate.
Qed.

(** A facilities entity without current links is not scored, and the zone
    with a score of 2/3 is flagged. *)
Lemma links_flag_iff_witness :
  DetermineVirtualEntityUpdateMaskWith (λ _ _, Raise ZeroDivisionError)
    floor_current_record floor_updated_record
  = Return []
  ∧ LINKS ∈ [LINKS].
Proof.
  destruct (links_flag_iff floor_current_record floor_updated_record)
    as (mask & Hmask & _ & Hempty).
  destruct (Hempty (or_introl eq_refl)) as [_ Hscorer].
  vm_compute in Hmask. injection Hmask as <-. split; [apply Hscorer|].
  destruct (links_flag_iff zone_current_record zone_updated_record)
    as (mask & Hmask & Hiff & _).
  vm_compute in Hmask. injection Hmask as <-.
  apply Hiff. split; [discriminate|]. split; [discriminate|].
  exists (2 # 3)%Q. split; [vm_compute; reflexivity | reflexivity].
Defined.

(** [vav_current] with connection 11 removed: an empty mask, and no operation. *)
Lemma connections_flag_additions_only_witness :
  ∃ result,
    DetermineEntityOperations sample_current_model
      (mkModel [with_connections vav_current [10]])
    = Return result
    ∧ operations_for "G1" result = []
    ∧ pair_update_mask vav_current (with_connections vav_current [10])
      = Return [].
Proof.
  destruct (connections_flag_additions_only
              (FieldTranslation := nat) (Connection := nat))
    as (_ & _ & Hremoved).
  destruct (Hremoved sample_current_model
              (mkModel [with_connections vav_current [10]]) vav_current [10])
    as (Hmask & _ & Hresult).
  - cbn. set_solver.
  - vm_compute. reflexivity.
  - apply list_elem_of_here.
  - eexists. split; [vm_compute; reflexivity|]. split; [|exact Hmask].
    apply Hresult; [vm_compute; reflexivity|].
    apply (bool_decide_unpack _). vm_compute. exact I.
Defined.

(** An added translation does not set the flag, a lost one does. *)
Lemma translation_flag_iff_lost_witness :
  (TRANSLATION ∉ DetermineReportingEntityUpdateMask
                   vav_current_record vav_updated_record)
  ∧ TRANSLATION ∈ DetermineReportingEntityUpdateMask
                    vav_current_record vav_renamed_record.
Proof.
  split.
  - apply (translation_flag_iff_lost vav_current_record vav_updated_record).
    cbn. set_solver.
  - apply (translation_flag_iff_lost vav_current_record vav_renamed_record).
    exists 3. cbn. set_solver.
Defined.

(** The generated ADD of [fan_new], whose guid no manual operation has, is
    dropped. *)
Lemma reconcile_within_manual_guids_witness :
  mkEntityOperation fan_new ADD None
  ∉ ReconcileOperations sample_model_operations sample_generated_operations.
Proof.
  apply (reconcile_within_manual_guids
           sample_model_operations sample_generated_operations).
  - apply list_elem_of_here.
  - cbn. set_solver.
Defined.

(** The sample output has the three positions of the manual list, the first
    one for [G1]. *)
Lemma reconcile_preserves_order_witness :
  length (ReconcileOperations sample_model_operations
            sample_generated_operations) = 3
  ∧ ∃ r,
      ReconcileOperations sample_model_operations sample_generated_operations
        !! 0
      = Some r
      ∧ bc_guid (entity r) = "G1".
Proof.
  destruct (reconcile_preserves_order
              sample_model_operations sample_generated_operations)
    as (Hlength & Hguid & _).
  split; [exact Hlength|].
  destruct (Hguid 0 (mkEntityOperation vav_current EXPORT None) eq_refl)
    as (r & Hr & Hg & _).
  exists r. split; [exact Hr | exact Hg].
Defined.

(** * The further properties on the sample data *)

(** All three current links survive among the updated ones. *)
Lemma link_score_extremes_witness :
  ∃ link_score,
    _GetLinkScore [1; 2; 3] [3; 2; 1; 7] = Return link_score
    ∧ (link_score == 1)%Q.
Proof.
  eexists. split; [vm_compute; reflexivity|].
  destruct (link_score_extremes [1; 2; 3] [3; 2; 1; 7] (3 # 3)%Q)
    as [Hone _]; [vm_compute; reflexivity|].
  apply Hone. set_solver.
Defined.

(** The same links in another order and with repetitions. *)
Lemma link_score_set_insensitive_witness :
  _GetLinkScore [1; 2; 2; 3] [4; 1; 1] = _GetLinkScore [3; 2; 1] [1; 4].
Proof.
  apply (link_score_set_insensitive [1; 2; 2; 3] [3; 2; 1] [4; 1; 1] [1; 4]);
    set_solver.
Defined.

(** Two of three links, then all three and a new one. *)
Lemma link_score_monotone_witness : (2 # 3 <= 3 # 3)%Q.
Proof.
  apply (link_score_monotone [1; 2; 3] [1; 2] [1; 2; 3; 9]);
    [set_solver | vm_compute; reflexivity | vm_compute; reflexivity].
Defined.

(** The current sample model against itself. *)
Lemma differ_of_unchanged_entities_witness :
  DetermineEntityOperations sample_current_model sample_current_model
  = Return [].
Proof.
  apply (differ_of_unchanged_entities sample_current_model
           sample_current_model); [|done].
  apply (bool_decide_unpack _). vm_compute. exact I.
Defined.

(** [fan_new] alone against the current sample model. *)
Lemma differ_of_new_entities_witness :
  DetermineEntityOperations sample_current_model (mkModel [fan_new])
  = Return [mkEntityOperation fan_new ADD None].
Proof.
  apply (differ_of_new_entities sample_current_model (mkModel [fan_new])).
  intros e He. apply list_elem_of_singleton in He as ->.
  vm_compute. discriminate.
Defined.

(** The operations generated for the sample models. *)
Lemma differ_output_shape_witness :
  length sample_generated_operations ≤ 4
  ∧ Forall (λ op, operation op ≠ DELETE ∧ operation op ≠ EXPORT)
           sample_generated_operations.
Proof.
  destruct (differ_output_shape sample_current_model sample_updated_model
              sample_generated_operations)
    as (_ & Hlength & _ & Htags); [vm_compute; reflexivity|].
  split; [exact Hlength | exact Htags].
Defined.

(** The generated sample operations in reverse order. *)
Lemma reconcile_generated_order_witness :
  ReconcileOperations sample_model_operations sample_generated_operations
  = ReconcileOperations sample_model_operations
      (reverse sample_generated_operations).
Proof.
  apply reconcile_generated_order.
  - apply (bool_decide_unpack _). vm_compute. exact I.
  - by rewrite reverse_Permutation.
Defined.

(** The manual DELETE of the zone is the only deletion of the output. *)
Lemma reconcile_keeps_deletions_witness :
  filter (λ op, operation op = DELETE)
         (ReconcileOperations sample_model_operations
            sample_generated_operations)
  = [mkEntityOperation zone_current DELETE None].
Proof.
  rewrite (reconcile_keeps_deletions sample_model_operations
             sample_generated_operations); [reflexivity|].
  repeat constructor; discriminate.
Defined.

(** The DELETE in the output for the sample models is the manual one. *)
Lemma reconcile_of_differ_witness :
  mkEntityOperation zone_current DELETE None ∈ sample_model_operations.
Proof.
  apply (reconcile_of_differ sample_current_model sample_updated_model
           sample_model_operations sample_generated_operations).
  - vm_compute. reflexivity.
  - vm_compute. apply list_elem_of_further, list_elem_of_here.
  - by left.
Defined.

(** The type with local fields has the smallest guid: three lines. *)
Lemma dump_fields_first_witness :
  ∃ lines,
    ontology_dump.main ontology_dump.sample_universe_late
    = ontology_dump.mkOutcome
        (Some ((ontology_dump.CStr <$> ontology_dump.field_keys) :: lines))
        None
    ∧ length lines = 3.
Proof.
  destruct (ontology_dump_facts.dump_fields_first
              ontology_dump.sample_universe_late ontology_dump.sample_fan)
    as (lines & Hmain & Hlength & _).
  - vm_compute. apply list_elem_of_here.
  - discriminate.
  - intros e He Hnil. vm_compute in He.
    apply elem_of_cons in He as [->|He]; [discriminate|].
    apply list_elem_of_singleton in He as ->. reflexivity.
  - exists lines. split; [exact Hmain | exact Hlength].
Defined.

(** The type without local fields has the smallest guid: the fan's rows are
    refused. *)
Lemma dump_canonical_first_witness :
  ontology_dump.raised (ontology_dump.main ontology_dump.sample_universe)
  = Some (ontology_dump.ValueError ["dbo.point_type_increment"]).
Proof.
  destruct (ontology_dump_facts.dump_canonical_first
              ontology_dump.sample_universe ontology_dump.sample_abstract)
    as (lines & _ & _ & _ & Hraised).
  - vm_compute. apply list_elem_of_further, list_elem_of_here.
  - reflexivity.
  - intros e He Hfields. vm_compute in He.
    apply elem_of_cons in He as [->|He]; [reflexivity|].
    apply list_elem_of_singleton in He as ->. done.
  - apply Hraised. exists ontology_dump.sample_fan. split; [|discriminate].
    vm_compute. apply list_elem_of_here.
Defined.
